(** * TextMAP tokenizers: the tokenization and multi-word-expression
      contraction pipeline of [textmap/tokenizers.py].

    The module embeds [BaseTokenizer], [NLTKTokenizer],
    [CountVectorizerTokenizer] and [StanzaTokenizer] together with the parts
    of NLTK that their [fit] methods call: [nltk.tokenize.mwe] ([Trie],
    [MWETokenizer]), [nltk.collocations.BigramCollocationFinder] and
    [nltk.metrics.BigramAssocMeasures.likelihood_ratio].

    Conventions.
    - A token is a [string]; a sentence is a list of tokens; a document is a
      list of sentences; the attribute [tokens_by_sent_by_doc_] is a list of
      documents, or Python's [None].
    - Python dictionaries ([Trie], [FreqDist]) are [gmap]s.
    - Python floats are idealised as real numbers; [math.log] raises
      [ValueError] outside its domain and a float division raises
      [ZeroDivisionError] on a zero divisor.  Rounding is not modelled.
    - Exceptions are the left summand of [result]. *)

From Stdlib Require Import ZArith List String Ascii Reals Lra Lia.
From stdpp Require Import base option list gmap strings sorting.

Set Default Proof Using "Type".

(** ** Data model *)

Abbreviation token := string (only parsing).
Abbreviation sentence := (list string) (only parsing).
Abbreviation document := (list (list string)) (only parsing).
Abbreviation corpus := (list (list (list string))) (only parsing).
Abbreviation bigram := (string * string)%type (only parsing).

(** ** Exceptions *)

Inductive exn :=
| ValueError          (* math domain error, raised by [math.log] *)
| ZeroDivisionError   (* float division by zero *)
| TypeError.          (* iterating over [None] *)

Definition result (A : Type) : Type := exn + A.
Abbreviation Ok := inr (only parsing).
Abbreviation Raise := inl (only parsing).

#[global] Instance result_ret : MRet result := fun A a => inr a.
#[global] Instance result_bind : MBind result := fun A B k m =>
  match m with
  | inl e => inl e
  | inr a => k a
  end.

(** [[f(x) for x in l]] where [f] may raise: the first exception escapes. *)
Fixpoint rmap {A B} (f : A → result B) (l : list A) : result (list B) :=
  match l with
  | [] => Ok []
  | a :: l' => b ← f a; bs ← rmap f l'; Ok (b :: bs)
  end.

(** ** [nltk.tokenize.mwe]: the trie of multi-word expressions *)

(** [class Trie(dict)]: the key [Trie.LEAF] is the flag [leaf], every other
    key is a token mapped to a sub-trie. *)
#[warnings="-register-all"]
Inductive Trie := TrieNode (leaf : bool) (children : gmap string Trie).

Definition leaf (t : Trie) : bool := let 'TrieNode b _ := t in b.
Definition children (t : Trie) : gmap string Trie := let 'TrieNode _ c := t in c.

(** [Trie()] *)
Definition Trie_empty : Trie := TrieNode false ∅.

(** [Trie.insert]: [self[string[0]].insert(string[1:])], where [__missing__]
    stores a fresh [Trie()] under an absent key; the empty sequence sets
    [self[Trie.LEAF]]. *)
Fixpoint Trie_insert (s : list token) (t : Trie) : Trie :=
  match s with
  | [] => TrieNode true (children t)
  | k :: s' =>
      TrieNode (leaf t)
        (<[k := Trie_insert s' (default Trie_empty (children t !! k))]> (children t))
  end.

(** [Trie.__init__(strings)] *)
Definition Trie_init (strings : list (list token)) : Trie :=
  foldl (fun t s => Trie_insert s t) Trie_empty strings.

(** A bigram is the 2-tuple [(w1, w2)]; [Trie.insert] walks it as a sequence. *)
Definition ngram_seq (p : bigram) : list token := [p.1; p.2].

Record MWETokenizer := {
  _mwes : Trie;
  _separator : string
}.

(** [MWETokenizer(mwes)], with the default [separator="_"]. *)
Definition MWETokenizer_init (mwes : list bigram) : MWETokenizer :=
  {| _mwes := Trie_init (ngram_seq <$> mwes); _separator := "_" |}.

(** The inner loop of [MWETokenizer.tokenize]:
    [while j < n and text[j] in trie: trie = trie[text[j]]; j = j + 1;
       if Trie.LEAF in trie: last_match = j].
    [last_match = -1] is [None].  [fuel] bounds the number of turns; [n - j]
    turns are always enough since [j] grows by one each turn. *)
Fixpoint mwe_scan (fuel : nat) (text : list token) (trie : Trie) (j : nat)
    (last_match : option nat) : Trie * nat * option nat :=
  match fuel with
  | O => (trie, j, last_match)
  | S fuel' =>
      match text !! j with
      | None => (trie, j, last_match)
      | Some w =>
          match children trie !! w with
          | None => (trie, j, last_match)
          | Some trie' =>
              mwe_scan fuel' text trie' (S j)
                (if leaf trie' then Some (S j) else last_match)
          end
      end
  end.

(** [text[i:j]] *)
Definition slice {A} (l : list A) (i j : nat) : list A := take (j - i) (drop i l).

(** The outer loop of [MWETokenizer.tokenize] ([while i < n]), from position
    [i] with the tokens emitted so far in [acc]. *)
Fixpoint mwe_loop (fuel : nat) (tk : MWETokenizer) (text : list token) (i : nat)
    (acc : list token) : list token :=
  match fuel with
  | O => acc
  | S fuel' =>
      match text !! i with
      | None => acc
      | Some w =>
          if bool_decide (is_Some (children (_mwes tk) !! w)) then
            let '(trie, j, last_match) :=
              mwe_scan (length text - i) text (_mwes tk) i None in
            let j := default j last_match in
            if leaf trie || bool_decide (is_Some last_match) then
              mwe_loop fuel' tk text j
                (acc ++ [String.concat (_separator tk) (slice text i j)])
            else
              mwe_loop fuel' tk text (S i) (acc ++ [w])
          else
            mwe_loop fuel' tk text (S i) (acc ++ [w])
      end
  end.

(** [MWETokenizer.tokenize(text)] *)
Definition tokenize (tk : MWETokenizer) (text : list token) : list token :=
  mwe_loop (length text) tk text 0 [].

(** [TokenizerI.tokenize_sents]: [[self.tokenize(s) for s in strings]] *)
Definition tokenize_sents (tk : MWETokenizer) (sents : list sentence) : list sentence :=
  tokenize tk <$> sents.

(** The contraction of line 133-136 of [NLTKTokenizer.fit]:
    [contracter = MWETokenizer(mwes)] and
    [[contracter.tokenize_sents(doc) for doc in self.tokens_by_sent_by_doc()]]. *)
Definition contract (mwes : list bigram) (toks : corpus) : corpus :=
  let contracter := MWETokenizer_init mwes in
  tokenize_sents contracter <$> toks.

(** The contraction pass in the words of the specification: scan the tokens
    left to right; when the current token and the next one form a pair of the
    ContractionSet, emit the two joined by the separator and go on after the
    pair; otherwise emit the current token and go on with the next one. *)
Fixpoint contract_spec (cs : list bigram) (toks : sentence) : sentence :=
  match toks with
  | [] => []
  | x :: tl =>
      match tl with
      | [] => [x]
      | y :: rest =>
          if bool_decide ((x, y) ∈ cs) then (x +:+ "_" +:+ y) :: contract_spec cs rest
          else x :: contract_spec cs tl
      end
  end.

(** ** [nltk.probability.FreqDist] (a [collections.Counter]) *)

(** [fd[k]]: a missing key counts 0. *)
Definition fd_get `{Countable K} (fd : gmap K Z) (k : K) : Z := default 0%Z (fd !! k).

(** [fd[k] += 1] *)
Definition fd_incr `{Countable K} (k : K) (fd : gmap K Z) : gmap K Z :=
  <[k := (fd_get fd k + 1)%Z]> fd.

(** [FreqDist.N()]: [sum(self.values())] *)
Definition fd_N `{Countable K} (fd : gmap K Z) : Z :=
  map_fold (fun _ v acc => (v + acc)%Z) 0%Z fd.

(** ** [nltk.collocations.BigramCollocationFinder] *)

Record BigramCollocationFinder := {
  word_fd : gmap token Z;
  ngram_fd : gmap bigram Z;
  window_size : Z
}.

(** [self.N = word_fd.N()] *)
Definition finder_N (f : BigramCollocationFinder) : Z := fd_N (word_fd f).

(** [_build_new_documents(documents, 2, pad_right=True)]: every document is
    followed by [window_size - 1 = 1] padding symbol [None], and the padded
    documents are chained. *)
Definition _build_new_documents (documents : list sentence) : list (option token) :=
  mjoin ((fun doc => (Some <$> doc) ++ [None]) <$> documents).

(** The sliding window of width 2 of [nltk.util.ngrams]. *)
Fixpoint windows2 {A} (l : list A) : list (A * A) :=
  match l with
  | [] => []
  | a :: tl =>
      match tl with
      | [] => []
      | b :: _ => (a, b) :: windows2 tl
      end
  end.

(** [ngrams(words, 2, pad_right=True)]: the sequence is padded with one
    [None] on the right before the window slides. *)
Definition ngrams2 (words : list (option token)) : list (option token * option token) :=
  windows2 (words ++ [None]).

(** The body of the [for window in ngrams(...)] loop of [from_words]. *)
Definition from_words_step (fds : gmap token Z * gmap bigram Z)
    (window : option token * option token) : gmap token Z * gmap bigram Z :=
  let '(wfd, bfd) := fds in
  match window.1 with
  | None => (wfd, bfd)                             (* continue *)
  | Some w1 =>
      let wfd := fd_incr w1 wfd in
      match window.2 with
      | Some w2 => (wfd, fd_incr (w1, w2) bfd)
      | None => (wfd, bfd)
      end
  end.

(** [BigramCollocationFinder.from_words(words)] with [window_size=2]. *)
Definition from_words (words : list (option token)) : BigramCollocationFinder :=
  let '(wfd, bfd) := foldl from_words_step (∅, ∅) (ngrams2 words) in
  {| word_fd := wfd; ngram_fd := bfd; window_size := 2 |}.

(** [BigramCollocationFinder.from_documents(documents)] *)
Definition from_documents (documents : list sentence) : BigramCollocationFinder :=
  from_words (_build_new_documents documents).

(** ** Floats *)

Local Open Scope R_scope.

#[global] Instance R_eq_dec : EqDecision R := Req_dec_T.
#[global] Instance Rlt_rel_dec : RelDecision Rlt := Rlt_dec.

(** A Python float: a finite value, an infinity or a NaN.  The scores that
    [likelihood_ratio] returns are finite; the threshold [min_MWE_PMI] is
    whatever the caller passes. *)
Inductive pyfloat := Finite (r : R) | PosInf | NegInf | NaN.

(** [score > min_score] for a finite score. *)
Definition score_gt (score : R) (min_score : pyfloat) : bool :=
  match min_score with
  | Finite m => bool_decide (m < score)
  | PosInf => false
  | NegInf => true
  | NaN => false
  end.

(** [a / b] on floats. *)
Definition pydiv (a b : R) : result R :=
  if decide (b = 0) then Raise ZeroDivisionError else Ok (a / b).

(** [_ln = math.log] *)
Definition _ln (x : R) : result R :=
  if decide (0 < x) then Ok (ln x) else Raise ValueError.

(** ** [nltk.metrics.association.BigramAssocMeasures] *)

Definition _SMALL : R := 1e-20.

(** [sum(l)] *)
Definition Rsum (l : list R) : R := foldl Rplus 0 l.

(** [_contingency(n_ii, (n_ix, n_xi), n_xx)], the 4-tuple as a list so that
    it is indexed by [i ^ 1] and [i ^ 2] as in [_expected_values]. *)
Definition _contingency (n_ii : R) (n_ix_xi_tuple : R * R) (n_xx : R) : list R :=
  let '(n_ix, n_xi) := n_ix_xi_tuple in
  let n_oi := n_xi - n_ii in
  let n_io := n_ix - n_ii in
  [n_ii; n_oi; n_io; n_xx - n_ii - n_oi - n_io].

(** [cont[i]] for [i] in [range(4)] (always in range). *)
Definition cell (cont : list R) (i : nat) : R := nth i cont 0.

(** The [i]-th value yielded by [_expected_values(cont)]:
    [(cont[i] + cont[i ^ 1]) * (cont[i] + cont[i ^ 2]) / n_xx]. *)
Definition _expected_value (cont : list R) (i : nat) : result R :=
  let n_xx := Rsum cont in
  pydiv ((cell cont i + cell cont (Nat.lxor i 1)) * (cell cont i + cell cont (Nat.lxor i 2)))
        n_xx.

(** One summand of [likelihood_ratio]:
    [obs * _ln(obs / (exp + _SMALL) + _SMALL)]. *)
Definition likelihood_term (cont : list R) (i : nat) : result R :=
  let obs := cell cont i in
  exp ← _expected_value cont i;
  q ← pydiv obs (exp + _SMALL);
  l ← _ln (q + _SMALL);
  Ok (obs * l).

(** [BigramAssocMeasures.likelihood_ratio(n_ii, (n_ix, n_xi), n_xx)] *)
Definition likelihood_ratio (n_ii : R) (n_ix_xi_tuple : R * R) (n_xx : R) : result R :=
  let cont := _contingency n_ii n_ix_xi_tuple n_xx in
  terms ← rmap (likelihood_term cont) (seq 0 4);
  Ok (2 * Rsum terms).

(** ** Scoring and selection ([AbstractCollocationFinder]) *)

Definition score_fn_t := R → R * R → R → result R.

(** [score_ngram(score_fn, w1, w2)]; [None] is Python's [return] without a
    value when the pair was never seen. *)
Definition score_ngram (f : BigramCollocationFinder) (score_fn : score_fn_t)
    (w1 w2 : token) : result (option R) :=
  let n_all := IZR (finder_N f) in
  let n_ii := IZR (fd_get (ngram_fd f) (w1, w2)) / (IZR (window_size f) - 1) in
  if decide (n_ii = 0) then Ok None
  else
    let n_ix := IZR (fd_get (word_fd f) w1) in
    let n_xi := IZR (fd_get (word_fd f) w2) in
    s ← score_fn n_ii (n_ix, n_xi) n_all;
    Ok (Some s).

(** [_score_ngrams(score_fn)]: the scored pairs, in the iteration order of
    the dictionary [ngram_fd].  That order does not survive [sorted] below. *)
Definition _score_ngrams (f : BigramCollocationFinder) (score_fn : score_fn_t)
    : result (list (bigram * R)) :=
  scored ← rmap (fun tup : bigram => s ← score_ngram f score_fn tup.1 tup.2; Ok (tup, s))
                (map_to_list (ngram_fd f)).*1;
  Ok (omap (fun ts : bigram * option R => (fun s => (ts.1, s)) <$> ts.2) scored).

(** Python's [<] on 2-tuples of strings. *)
Definition bigram_lt (p q : bigram) : Prop :=
  if decide (p.1 = q.1) then String.ltb p.2 q.2 = true else String.ltb p.1 q.1 = true.

(** Python's [<] on the sort keys [(-t[1], t[0])]. *)
Definition key_lt (a b : bigram * R) : Prop :=
  - a.2 < - b.2 ∨ (- a.2 = - b.2 ∧ bigram_lt a.1 b.1).

(** [a] may stand before [b] in a list sorted by that key. *)
Definition key_le (a b : bigram * R) : Prop := ¬ key_lt b a.

#[global] Instance bigram_lt_dec p q : Decision (bigram_lt p q).
Proof. unfold bigram_lt. destruct (decide (p.1 = q.1)); apply _. Defined.

#[global] Instance key_lt_dec a b : Decision (key_lt a b).
Proof. unfold key_lt. apply _. Defined.

#[global] Instance key_le_dec a b : Decision (key_le a b).
Proof. unfold key_le. apply _. Defined.

(** [score_ngrams(score_fn)]:
    [sorted(self._score_ngrams(score_fn), key=lambda t: (-t[1], t[0]))].
    The keys are pairwise distinct, so the sorted list is unique. *)
Definition score_ngrams (f : BigramCollocationFinder) (score_fn : score_fn_t)
    : result (list (bigram * R)) :=
  scored ← _score_ngrams f score_fn;
  Ok (merge_sort key_le scored).

(** The loop of [above_score]:
    [for ngram, score in ...: if score > min_score: yield ngram else: break]. *)
Fixpoint above_score_loop (scored : list (bigram * R)) (min_score : pyfloat) : list bigram :=
  match scored with
  | [] => []
  | (ngram, score) :: rest =>
      if score_gt score min_score then ngram :: above_score_loop rest min_score
      else []
  end.

(** [above_score(score_fn, min_score)], consumed by [list(...)]. *)
Definition above_score (f : BigramCollocationFinder) (score_fn : score_fn_t)
    (min_score : pyfloat) : result (list bigram) :=
  scored ← score_ngrams f score_fn;
  Ok (above_score_loop scored min_score).

(** ** Values and side conditions of the score, used in the properties below *)

(** The value of one summand when nothing raises. *)
Definition term_value (obs rowsum colsum n_xx : R) : R :=
  obs * ln (obs / (rowsum * colsum / n_xx + _SMALL) + _SMALL).

(** The contingency table of marginals that are consistent with each other:
    the pair count is at most each word count, and the words that are
    neither the first nor the second word of the pair are not negative many. *)
Definition consistent_marginals (n_ii n_ix n_xi n_xx : R) : Prop :=
  0 <= n_ii ∧ n_ii <= n_ix ∧ n_ii <= n_xi ∧ n_ix + n_xi - n_ii <= n_xx ∧ 0 < n_xx.

(** The score when nothing raises. *)
Definition likelihood_value (n_ii n_ix n_xi n_xx : R) : R :=
  let cont := _contingency n_ii (n_ix, n_xi) n_xx in
  2 * Rsum ((fun i => term_value (cell cont i) (cell cont i + cell cont (Nat.lxor i 1))
                        (cell cont i + cell cont (Nat.lxor i 2)) (Rsum cont)) <$> seq 0 4).

(** Scores do not increase along a list sorted by the key. *)
Definition score_desc (a b : string * string * R) : Prop := b.2 <= a.2.

(** The score of the pair of the one-sentence corpus "foo bar". *)
Definition foo_bar_score : R := likelihood_value (IZR 1) (IZR 1) (IZR 1) (IZR 2).

Local Close Scope R_scope.

(** ** [textmap.utilities] *)

(** Modelled from the spec: [flatten] of [textmap/utilities.py], which is not
    among the sources.  The specification describes the accessor built on it
    as "tokens grouped by sentence (documents flattened, sentence grouping
    preserved)": one level of nesting is removed. *)
Definition flatten {A} (l : list (list A)) : list A := mjoin l.

(** ** The external text capabilities *)

(** What [tokenizers.py] imports and calls on raw text: NLTK's
    [sent_tokenize] and [word_tokenize], Python's [str.lower], and the
    preprocessor and tokenizer that scikit-learn's [CountVectorizer] builds. *)
Class Toolkit := {
  sent_tokenize : string → list string;
  word_tokenize : string → list string;
  str_lower : string → string;
  cv_preprocesser : string → string;
  cv_word_tokenize : string → list string
}.

(** ** The tokenizer classes *)

(** The constructor arguments stored by [NLTKTokenizer.__init__]. *)
Record NLTKTokenizer := {
  lower_case : bool;
  max_MWE_iterations : Z;
  min_MWE_PMI : pyfloat
}.

(** [NLTKTokenizer()] with the default arguments. *)
Definition NLTKTokenizer_default : NLTKTokenizer :=
  {| lower_case := false; max_MWE_iterations := 2; min_MWE_PMI := Finite 12 |}.

(** The constructor arguments stored by [CountVectorizerTokenizer.__init__]. *)
Record CountVectorizerTokenizer := {
  cv_max_MWE_iterations : Z;
  cv_min_MWE_PMI : pyfloat
}.

(** [class StanzaTokenizer(BaseTokenizer): pass] *)
Inductive StanzaTokenizer := Stanza.

Inductive BaseTokenizer := Base.

(** [fit] writes one attribute, [self.tokens_by_sent_by_doc_]; the model of a
    [fit] method returns the value written ([None] is Python's [None]), or
    the exception raised. *)
Class Tokenizer (T : Type) := fit : T → list string → result (option corpus).

(** [BaseTokenizer.fit_transform]: [self.fit(X, **fit_params)] and then
    [return self.tokens_by_sent_by_doc_]. *)
Definition fit_transform `{Tokenizer T} (self : T) (X : list string)
    : result (option corpus) :=
  tokens_by_sent_by_doc_ ← fit self X;
  Ok tokens_by_sent_by_doc_.

(** [BaseTokenizer.fit]: [self.tokens_by_sent_by_doc_ = None]. *)
Definition BaseTokenizer_fit (X : list string) : result (option corpus) := Ok None.

(** [BaseTokenizer.tokens_by_sent_by_doc] *)
Definition tokens_by_sent_by_doc (tokens_by_sent_by_doc_ : option corpus) : option corpus :=
  tokens_by_sent_by_doc_.

(** [BaseTokenizer.tokens_by_sent]: [flatten(self.tokens_by_sent_by_doc())].
    Flattening Python's [None] is taken to raise [TypeError]; [fit] only
    reaches this accessor after it has stored a list. *)
Definition tokens_by_sent (tokens_by_sent_by_doc_ : option corpus) : result (list sentence) :=
  match tokens_by_sent_by_doc tokens_by_sent_by_doc_ with
  | None => Raise TypeError
  | Some docs => Ok (flatten docs)
  end.

(** [BaseTokenizer.tokens_by_doc]:
    [[flatten(doc) for doc in self.tokens_by_sent_by_doc()]] *)
Definition tokens_by_doc (tokens_by_sent_by_doc_ : option corpus) : result (list (list token)) :=
  match tokens_by_sent_by_doc tokens_by_sent_by_doc_ with
  | None => Raise TypeError
  | Some docs => Ok (flatten <$> docs)
  end.

(** The body of the loop [for i in range(self.max_MWE_iterations)] (lines
    125-136 and, word for word, 169-180), run on the current value [toks] of
    the attribute.  [None] is [break]; [Some toks'] is the value assigned to
    the attribute by the contraction. *)
Definition mwe_iteration (min_score : pyfloat) (toks : corpus) : result (option corpus) :=
  sents ← tokens_by_sent (Some toks);
  let bigramer := from_documents sents in
  mwes ← above_score bigramer likelihood_ratio min_score;
  if bool_decide (length mwes = 0%nat) then Ok None
  else Ok (Some (contract mwes toks)).

(** The loop itself, for [n] remaining values of [range].  Besides the final
    attribute it returns the number of turns that ran to their end, that is,
    the number of contraction passes performed. *)
Fixpoint mwe_for (n : nat) (min_score : pyfloat) (toks : corpus) : result (nat * corpus) :=
  match n with
  | O => Ok (O, toks)
  | S n' =>
      r ← mwe_iteration min_score toks;
      match r with
      | None => Ok (O, toks)
      | Some toks' =>
          kt ← mwe_for n' min_score toks';
          Ok (S kt.1, kt.2)
      end
  end.

(** [len(range(n))]: no turn for [n <= 0]. *)
Definition range_len (n : Z) : nat := Z.to_nat n.

Section Fit.
Context `{Toolkit}.

(** Lines 115-122 of [NLTKTokenizer.fit]: the initial value of the
    attribute. *)
Definition NLTK_initial (self : NLTKTokenizer) (X : list string) : corpus :=
  if lower_case self then
    (fun doc => (fun sent => word_tokenize (str_lower sent)) <$> sent_tokenize doc) <$> X
  else
    (fun doc => (fun sent => word_tokenize sent) <$> sent_tokenize doc) <$> X.

(** [NLTKTokenizer.fit] *)
Definition NLTKTokenizer_fit (self : NLTKTokenizer) (X : list string)
    : result (option corpus) :=
  let toks := NLTK_initial self X in
  kt ← mwe_for (range_len (max_MWE_iterations self)) (min_MWE_PMI self) toks;
  Ok (Some kt.2).

(** Lines 163-167 of [CountVectorizerTokenizer.fit]. *)
Definition CountVectorizer_initial (X : list string) : corpus :=
  (fun doc => (fun sent => cv_word_tokenize sent) <$> sent_tokenize (cv_preprocesser doc)) <$> X.

(** [CountVectorizerTokenizer.fit] *)
Definition CountVectorizerTokenizer_fit (self : CountVectorizerTokenizer) (X : list string)
    : result (option corpus) :=
  let toks := CountVectorizer_initial X in
  kt ← mwe_for (range_len (cv_max_MWE_iterations self)) (cv_min_MWE_PMI self) toks;
  Ok (Some kt.2).

#[global] Instance BaseTokenizer_Tokenizer : Tokenizer BaseTokenizer :=
  fun _ X => BaseTokenizer_fit X.
#[global] Instance NLTKTokenizer_Tokenizer : Tokenizer NLTKTokenizer :=
  NLTKTokenizer_fit.
#[global] Instance CountVectorizerTokenizer_Tokenizer : Tokenizer CountVectorizerTokenizer :=
  CountVectorizerTokenizer_fit.
(** [StanzaTokenizer] defines nothing: [fit] is the inherited one. *)
#[global] Instance StanzaTokenizer_Tokenizer : Tokenizer StanzaTokenizer :=
  fun _ X => BaseTokenizer_fit X.
End Fit.

(** ** A small toolkit to run the pipeline on

    Stand-ins for the external capabilities, used to evaluate [fit] on
    concrete documents.  They follow NLTK on the documents used below.
    - Sentences: a full stop followed by a blank and another character ends
      a sentence; after an abbreviation (a word of [abbreviations], whatever
      its case) it does so only before a capitalised word of
      [sentence_starters], as Punkt decides for an abbreviation.  The empty
      string has no sentence.
    - Words: words are separated by blanks, and the full stop that ends the
      text is a token of its own, as the Treebank tokenizer has it.
    - Lower-casing acts on the letters A-Z. *)
Module Sample.

Definition is_upper (c : ascii) : bool :=
  (65 <=? nat_of_ascii c)%nat && (nat_of_ascii c <=? 90)%nat.

Definition lower_ascii (c : ascii) : ascii :=
  if is_upper c then ascii_of_nat (nat_of_ascii c + 32) else c.

Fixpoint lower (s : string) : string :=
  match s with
  | EmptyString => EmptyString
  | String c s' => String (lower_ascii c) (lower s')
  end.

Definition is_empty (s : string) : bool :=
  match s with EmptyString => true | _ => false end.

Fixpoint split_words (s cur : string) : list string :=
  match s with
  | EmptyString => if is_empty cur then [] else [cur]
  | String c s' =>
      if Ascii.eqb c " " then
        if is_empty cur then split_words s' "" else cur :: split_words s' ""
      else split_words s' (cur +:+ String c "")
  end.

(** The text without the full stop that ends it, when it ends with one that
    follows a character other than a full stop. *)
Fixpoint final_stop (s : string) : option string :=
  match s with
  | EmptyString => None
  | String c s' =>
      match s' with
      | EmptyString => None
      | String "." EmptyString => if Ascii.eqb c "." then None else Some (String c "")
      | _ => String c <$> final_stop s'
      end
  end.

Definition words (s : string) : list string :=
  match final_stop s with
  | Some s' => split_words s' "" ++ ["."]
  | None => split_words s ""
  end.

(** The word that ends [s]: what follows its last blank. *)
Fixpoint last_word (s cur : string) : string :=
  match s with
  | EmptyString => cur
  | String c s' =>
      if Ascii.eqb c " " then last_word s' "" else last_word s' (cur +:+ String c "")
  end.

Definition abbreviations : list string := ["inc"; "corp"; "co"; "mr"; "dr"].

Definition is_abbreviation (w : string) : bool := bool_decide (lower w ∈ abbreviations).

Definition sentence_starters : list string := ["he"; "she"; "it"; "the"; "but"].

(** The first word of [s]: what precedes its first blank or full stop. *)
Fixpoint first_word (s cur : string) : string :=
  match s with
  | EmptyString => cur
  | String c s' =>
      if Ascii.eqb c " " || Ascii.eqb c "." then cur
      else first_word s' (cur +:+ String c "")
  end.

(** Is [s] a capitalised sentence starter followed by whatever? *)
Definition starts_sentence (s : string) : bool :=
  match s with
  | EmptyString => false
  | String d _ => is_upper d && bool_decide (lower (first_word s "") ∈ sentence_starters)
  end.

(** Does the full stop that follows [cur] and precedes [s'] end a sentence? *)
Definition ends_sentence (cur s' : string) : bool :=
  match s' with
  | String " " EmptyString => false
  | String " " next =>
      if is_abbreviation (last_word cur "") then starts_sentence next else true
  | _ => false
  end.

Fixpoint split_sentences (s cur : string) : list string :=
  match s with
  | EmptyString => if is_empty cur then [] else [cur]
  | String c s' =>
      if Ascii.eqb c " " && is_empty cur then split_sentences s' ""
      else if Ascii.eqb c "." && ends_sentence cur s' then
        (cur +:+ ".") :: split_sentences s' ""
      else split_sentences s' (cur +:+ String c "")
  end.

Definition toolkit : Toolkit := {|
  sent_tokenize s := split_sentences s "";
  word_tokenize s := words s;
  str_lower := lower;
  cv_preprocesser := lower;
  cv_word_tokenize s := split_words s ""
|}.

End Sample.

(** The example corpus of the specification. *)
Definition example_docs : list string :=
  ["foo bar pok wer pok pok foo bar wer qwe pok asd fgh";
   "";
   "fgh asd foo pok qwe pok wer pok foo bar pok pok wer"].

(** ** Predicates used in the properties below *)

(** What [Trie(mwes)] looks like when every expression is a bigram of [S]:
    two levels of tokens and, below them, leaves without children. *)
Definition bigram_trie (S : list bigram) (t : Trie) : Prop :=
  leaf t = false ∧
  ∀ x, match children t !! x with
       | None => ∀ y, (x, y) ∉ S
       | Some tx =>
           leaf tx = false ∧
           ∀ y, match children tx !! y with
                | None => (x, y) ∉ S
                | Some ty => (x, y) ∈ S ∧ ty = TrieNode true ∅
                end
       end.

(** [shape_le after before]: as many documents, as many sentences in each
    document, and in each sentence at most as many tokens. *)
Definition shape_le (after before : list (list (list string))) : Prop :=
  Forall2 (Forall2 (fun s' s : list string => (length s' ≤ length s)%nat)) after before.

(** ** Measures of a structure, used in the properties below *)

(** The number of tokens of a structure. *)
Definition token_count (toks : list (list (list string))) : nat :=
  sum_list_with (fun doc : list (list string) => sum_list_with length doc) toks.

(** The text of every sentence: its tokens joined by the separator of
    [MWETokenizer]. *)
Definition sentence_texts (toks : list (list (list string))) : list (list string) :=
  (fun doc : list (list string) => String.concat "_" <$> doc) <$> toks.

(** ** Counts over the windows of [from_words], used in the properties below *)

(** The number of windows that start with the word [w]. *)
Definition count_first (w : string) (wins : list (option string * option string)) : nat :=
  length (filter (fun win : option string * option string => win.1 = Some w) wins).

(** The number of windows that hold the pair [p]. *)
Definition count_pair (p : string * string) (wins : list (option string * option string))
    : nat :=
  length (filter (fun win : option string * option string => win = (Some p.1, Some p.2)) wins).

(** The number of windows that start with a word. *)
Definition count_words (wins : list (option string * option string)) : nat :=
  length (filter (fun win : option string * option string => is_Some win.1) wins).

(** * Properties *)

Example contract_foo_bar :
  contract [("foo", "bar")]
    [[["foo"; "bar"; "pok"; "foo"; "bar"; "bar"]; ["bar"; "foo"]]; []; [["foo"; "bar"]]]
  = [[["foo_bar"; "pok"; "foo_bar"; "bar"]; ["bar"; "foo"]]; []; [["foo_bar"]]].
Proof. vm_compute. reflexivity. Qed.

Example sample_initial :
  @NLTK_initial Sample.toolkit {| lower_case := true; max_MWE_iterations := 0; min_MWE_PMI := Finite 12 |}
    ["Hi there. Go on"; ""; "a  b"]
  = [[["hi"; "there"; "."]; ["go"; "on"]]; []; [["a"; "b"]]].
Proof. vm_compute. reflexivity. Qed.

(** ** The trie of a set of bigrams *)

Lemma bigram_trie_empty : bigram_trie [] Trie_empty.
Proof.
  split; [reflexivity|]. intros x. simpl. rewrite lookup_empty.
  intros y Hy. by apply elem_of_nil in Hy.
Qed.

Lemma bigram_trie_ext S S' t :
  (∀ q, q ∈ S ↔ q ∈ S') → bigram_trie S t → bigram_trie S' t.
Proof.
  intros Heq [Hleaf Hch]. split; [exact Hleaf|].
  intros x. specialize (Hch x). destruct (children t !! x) as [tx|].
  - destruct Hch as [Hl Hy]. split; [exact Hl|]. intros y. specialize (Hy y).
    destruct (children tx !! y); [rewrite <- Heq | rewrite <- Heq]; exact Hy.
  - intros y. rewrite <- Heq. apply Hch.
Qed.

Lemma bigram_trie_insert S t a b :
  bigram_trie S t → bigram_trie ((a, b) :: S) (Trie_insert [a; b] t).
Proof.
  intros [Hleaf Hch]. split; [exact Hleaf|].
  intros x. cbn [Trie_insert children].
  destruct (decide (a = x)) as [->|Hne].
  - rewrite lookup_insert_eq. pose proof (Hch x) as Hx.
    split.
    + cbn [leaf]. destruct (children t !! x) as [tx|]; [apply Hx | reflexivity].
    + intros y. cbn [children]. destruct (decide (b = y)) as [->|Hney].
      * rewrite lookup_insert_eq. split; [apply list_elem_of_here|].
        f_equal. destruct (children t !! x) as [tx|]; simpl.
        -- destruct Hx as [_ Hy]. specialize (Hy y).
           destruct (children tx !! y) as [ty|]; simpl; [|reflexivity].
           destruct Hy as [_ ->]. reflexivity.
        -- rewrite lookup_empty. reflexivity.
      * rewrite lookup_insert_ne by exact Hney.
        destruct (children t !! x) as [tx|]; simpl.
        -- destruct Hx as [_ Hy]. specialize (Hy y).
           destruct (children tx !! y) as [ty|].
           ++ destruct Hy as [Hin ->]. split; [by apply list_elem_of_further|reflexivity].
           ++ rewrite elem_of_cons. intros [Heq|Hin]; [congruence|by apply Hy].
        -- rewrite lookup_empty, elem_of_cons. intros [Heq|Hin]; [congruence|by apply (Hx y)].
  - rewrite lookup_insert_ne by exact Hne. specialize (Hch x).
    destruct (children t !! x) as [tx|].
    + destruct Hch as [Hl Hy]. split; [exact Hl|]. intros y. specialize (Hy y).
      destruct (children tx !! y) as [ty|].
      * destruct Hy as [Hin ->]. split; [by apply list_elem_of_further|reflexivity].
      * rewrite elem_of_cons. intros [Heq|Hin]; [congruence|by apply Hy].
    + intros y. rewrite elem_of_cons. intros [Heq|Hin]; [congruence|by apply (Hch y)].
Qed.

Lemma bigram_trie_foldl mwes : ∀ S t,
  bigram_trie S t →
  bigram_trie (reverse mwes ++ S) (foldl (fun t s => Trie_insert s t) t (ngram_seq <$> mwes)).
Proof.
  induction mwes as [|[a b] mwes IH]; intros S t Ht; [exact Ht|].
  cbn [fmap list_fmap foldl]. rewrite reverse_cons, <- app_assoc. cbn [app].
  apply IH. unfold ngram_seq. cbn [fst snd]. by apply bigram_trie_insert.
Qed.

Lemma bigram_trie_init mwes : bigram_trie mwes (Trie_init (ngram_seq <$> mwes)).
Proof.
  apply bigram_trie_ext with (S := reverse mwes ++ []).
  - intros q. rewrite app_nil_r. apply elem_of_reverse.
  - apply bigram_trie_foldl, bigram_trie_empty.
Qed.

(** ** One contraction pass *)

(** The inner loop on the trie of a set of bigrams: from a token [x] that
    opens some bigram, it stops after two tokens on a match and after one
    otherwise. *)
Lemma mwe_scan_bigram cs root (text : list string) i x tx :
  bigram_trie cs root →
  text !! i = Some x →
  children root !! x = Some tx →
  mwe_scan (length text - i) text root i None =
    match text !! (S i) with
    | Some y =>
        if bool_decide ((x, y) ∈ cs) then (TrieNode true ∅, S (S i), Some (S (S i)))
        else (tx, S i, None)
    | None => (tx, S i, None)
    end.
Proof.
  intros [_ Hroot] Hi Hx.
  pose proof (lookup_lt_Some _ _ _ Hi) as Hlen.
  destruct (length text - i)%nat as [|fuel] eqn:Hfuel; [lia|].
  cbn [mwe_scan]. rewrite Hi, Hx.
  specialize (Hroot x). rewrite Hx in Hroot. destruct Hroot as [Hltx Htx].
  rewrite Hltx.
  destruct (text !! S i) as [y|] eqn:Hy.
  - pose proof (lookup_lt_Some _ _ _ Hy) as Hlen'.
    destruct fuel as [|fuel]; [lia|].
    cbn [mwe_scan]. rewrite Hy. specialize (Htx y).
    destruct (children tx !! y) as [ty|].
    + destruct Htx as [Hin ->]. rewrite bool_decide_eq_true_2 by exact Hin.
      cbn [leaf]. destruct fuel as [|fuel]; [reflexivity|].
      cbn [mwe_scan children].
      destruct (text !! S (S i)); [rewrite lookup_empty|]; reflexivity.
    + rewrite bool_decide_eq_false_2 by exact Htx. reflexivity.
  - destruct fuel as [|fuel]; [reflexivity|]. cbn [mwe_scan]. rewrite Hy. reflexivity.
Qed.

Lemma drop_lookup_cons {A} (l : list A) i x :
  l !! i = Some x → drop i l = x :: drop (S i) l.
Proof.
  revert i. induction l as [|a l IH]; intros [|i] Hi; try discriminate.
  - simpl in Hi. injection Hi as ->. by rewrite drop_0.
  - simpl in *. by apply IH.
Qed.

(** The outer loop of [MWETokenizer.tokenize], from any position and with
    any sufficient fuel, emits what the specification's scan emits on the
    rest of the sentence. *)
Lemma mwe_loop_spec mwes (text : list string) : ∀ fuel i acc,
  (length text - i ≤ fuel)%nat →
  mwe_loop fuel (MWETokenizer_init mwes) text i acc
  = acc ++ contract_spec mwes (drop i text).
Proof.
  pose proof (bigram_trie_init mwes) as Htrie.
  induction fuel as [|fuel IH]; intros i acc Hfuel.
  - cbn [mwe_loop]. rewrite drop_ge by lia. by rewrite app_nil_r.
  - cbn [mwe_loop]. destruct (text !! i) as [x|] eqn:Hi.
    2:{ rewrite drop_ge by (by apply lookup_ge_None). by rewrite app_nil_r. }
    pose proof (lookup_lt_Some _ _ _ Hi) as Hlen.
    rewrite (drop_lookup_cons _ _ _ Hi).
    cbn [_mwes _separator MWETokenizer_init].
    destruct (children (Trie_init (ngram_seq <$> mwes)) !! x) as [tx|] eqn:Hx.
    + rewrite bool_decide_eq_true_2 by eauto.
      rewrite (mwe_scan_bigram _ _ _ _ _ _ Htrie Hi Hx).
      destruct (text !! S i) as [y|] eqn:Hy.
      * rewrite (drop_lookup_cons _ _ _ Hy). cbn [contract_spec].
        destruct (bool_decide ((x, y) ∈ mwes)) eqn:Hin.
        -- cbn [leaf orb from_option]. unfold Datatypes.id. rewrite IH by lia.
           unfold slice. replace (S (S i) - i)%nat with 2%nat by lia.
           rewrite (drop_lookup_cons _ _ _ Hi), (drop_lookup_cons _ _ _ Hy).
           cbn [take String.concat]. by rewrite <- app_assoc.
        -- destruct Htrie as [_ Hroot]. specialize (Hroot x). rewrite Hx in Hroot.
           destruct Hroot as [-> _]. cbn [orb from_option]. unfold Datatypes.id.
           rewrite bool_decide_eq_false_2 by (by intros [? ?]).
           rewrite IH by lia. rewrite (drop_lookup_cons _ _ _ Hy).
           by rewrite <- app_assoc.
      * destruct Htrie as [_ Hroot]. specialize (Hroot x). rewrite Hx in Hroot.
        destruct Hroot as [-> _]. cbn [orb from_option]. unfold Datatypes.id.
        rewrite bool_decide_eq_false_2 by (by intros [? ?]).
        rewrite IH by lia. rewrite drop_ge by (by apply lookup_ge_None).
        cbn [contract_spec]. by rewrite app_nil_r.
    + rewrite bool_decide_eq_false_2 by (by intros [? ?]).
      rewrite IH by lia. rewrite <- app_assoc. f_equal.
      destruct Htrie as [_ Hroot]. specialize (Hroot x). rewrite Hx in Hroot.
      destruct (drop (S i) text) as [|y rest]; [reflexivity|].
      cbn [contract_spec app]. rewrite bool_decide_eq_false_2 by apply Hroot.
      reflexivity.
Qed.

(** The fuel that [tokenize] passes never runs out: more fuel does not change
    the result. *)
Lemma tokenize_fuel mwes (text : list string) fuel :
  (length text ≤ fuel)%nat →
  mwe_loop fuel (MWETokenizer_init mwes) text 0 [] = tokenize (MWETokenizer_init mwes) text.
Proof.
  intros Hfuel. unfold tokenize. rewrite !mwe_loop_spec by lia. reflexivity.
Qed.

Lemma tokenize_spec mwes (text : list string) :
  tokenize (MWETokenizer_init mwes) text = contract_spec mwes text.
Proof.
  unfold tokenize. rewrite mwe_loop_spec by lia. by rewrite drop_0.
Qed.

(** C1.  One contraction pass: for every corpus and every ContractionSet,
    the code's pass ([MWETokenizer(mwes)] applied to every sentence of every
    document) scans each sentence left to right, replaces a current and next
    token that form a pair of the set by the two joined with ["_"], and goes
    on after the merged pair, so that matches do not overlap. *)
Theorem C1_contract_is_left_to_right_merge (mwes : list (string * string))
    (toks : list (list (list string))) :
  contract mwes toks
  = (fun doc : list (list string) => contract_spec mwes <$> doc) <$> toks.
Proof.
  unfold contract, tokenize_sents.
  apply list_fmap_ext. intros _ doc _.
  apply list_fmap_ext. intros _ sent _.
  apply tokenize_spec.
Qed.

(** ** Shape of the structure under contraction *)

Lemma shape_le_refl toks : shape_le toks toks.
Proof.
  unfold shape_le. induction toks as [|d toks IH]; constructor; [|exact IH].
  induction d; constructor; [lia|assumption].
Qed.

Lemma shape_le_trans t3 t2 t1 : shape_le t3 t2 → shape_le t2 t1 → shape_le t3 t1.
Proof.
  unfold shape_le. intros H32 H21.
  eapply Forall2_trans; [|exact H32|exact H21].
  intros d3 d2 d1 Hd32 Hd21.
  eapply Forall2_trans; [|exact Hd32|exact Hd21].
  intros s3 s2 s1; cbn; lia.
Qed.

Lemma shape_le_documents after before :
  shape_le after before → length after = length before.
Proof. apply Forall2_length. Qed.

Lemma shape_le_sentences after before :
  shape_le after before →
  Forall2 (fun d' d : list (list string) => length d' = length d) after before.
Proof.
  unfold shape_le. intros Hs. eapply Forall2_impl; [exact Hs|].
  intros d' d. apply Forall2_length.
Qed.

Lemma contract_spec_cons cs x y rest :
  contract_spec cs (x :: y :: rest) =
  if bool_decide ((x, y) ∈ cs) then (x +:+ "_" +:+ y) :: contract_spec cs rest
  else x :: contract_spec cs (y :: rest).
Proof. reflexivity. Qed.

Lemma contract_spec_length cs : ∀ n (s : list string),
  (length s ≤ n)%nat → (length (contract_spec cs s) ≤ length s)%nat.
Proof.
  induction n as [|n IH]; intros s Hn.
  - destruct s; [cbn; lia|cbn in Hn; lia].
  - destruct s as [|x [|y rest]]; [cbn; lia|cbn; lia|].
    rewrite contract_spec_cons.
    destruct (bool_decide ((x, y) ∈ cs)); cbn [length].
    + specialize (IH rest). cbn in Hn. specialize (IH ltac:(lia)). lia.
    + specialize (IH (y :: rest)). cbn in Hn. cbn [length] in IH.
      specialize (IH ltac:(lia)). lia.
Qed.

Lemma contract_shape mwes toks : shape_le (contract mwes toks) toks.
Proof.
  unfold shape_le, contract, tokenize_sents.
  apply Forall2_fmap_l, Forall_Forall2_diag, Forall_forall. intros doc _.
  apply Forall2_fmap_l, Forall_Forall2_diag, Forall_forall. intros sent _.
  unfold compose. rewrite tokenize_spec.
  by apply (contract_spec_length mwes (length sent)).
Qed.

(** ** The loop *)

Lemma mwe_iteration_unfold min_score toks :
  mwe_iteration min_score toks =
  match above_score (from_documents (flatten toks)) likelihood_ratio min_score with
  | inl e => inl e
  | inr mwes =>
      if bool_decide (length mwes = 0%nat) then Ok None else Ok (Some (contract mwes toks))
  end.
Proof. reflexivity. Qed.

Lemma mwe_iteration_shape min_score toks toks' :
  mwe_iteration min_score toks = Ok (Some toks') → shape_le toks' toks.
Proof.
  rewrite mwe_iteration_unfold.
  destruct (above_score _ _ _) as [e|mwes]; [discriminate|].
  destruct (bool_decide _); [discriminate|].
  intros [= <-]. apply contract_shape.
Qed.

Lemma mwe_iteration_break min_score toks :
  above_score (from_documents (flatten toks)) likelihood_ratio min_score = Ok [] →
  mwe_iteration min_score toks = Ok None.
Proof. intros Hsel. rewrite mwe_iteration_unfold, Hsel. reflexivity. Qed.

Lemma mwe_for_S n min_score toks :
  mwe_for (S n) min_score toks =
  match mwe_iteration min_score toks with
  | inl e => inl e
  | inr None => Ok (O, toks)
  | inr (Some toks') =>
      match mwe_for n min_score toks' with
      | inl e => inl e
      | inr kt => Ok (S kt.1, kt.2)
      end
  end.
Proof.
  cbn [mwe_for]. destruct (mwe_iteration min_score toks) as [e|[toks'|]]; reflexivity.
Qed.

Lemma mwe_for_shape min_score : ∀ n toks k toks',
  mwe_for n min_score toks = Ok (k, toks') → shape_le toks' toks.
Proof.
  induction n as [|n IH]; intros toks k toks'.
  - intros [= <- <-]. apply shape_le_refl.
  - rewrite mwe_for_S.
    destruct (mwe_iteration min_score toks) as [e|[t1|]] eqn:Hit; [discriminate| |].
    + destruct (mwe_for n min_score t1) as [e|[k1 t2]] eqn:Hfor; [discriminate|].
      intros [= <- <-]. eapply shape_le_trans; [by eapply IH|].
      by eapply mwe_iteration_shape.
    + intros [= <- <-]. apply shape_le_refl.
Qed.

(** The number of passes is at most the number of values of [range]. *)
Lemma mwe_for_passes min_score : ∀ n toks k toks',
  mwe_for n min_score toks = Ok (k, toks') → (k ≤ n)%nat.
Proof.
  induction n as [|n IH]; intros toks k toks'.
  - intros [= <- <-]. lia.
  - rewrite mwe_for_S.
    destruct (mwe_iteration min_score toks) as [e|[t1|]]; [discriminate| |].
    + destruct (mwe_for n min_score t1) as [e|[k1 t2]] eqn:Hfor; [discriminate|].
      intros [= <- <-]. apply IH in Hfor. cbn. lia.
    + intros [= <- <-]. lia.
Qed.

(** One more value of [range]: either the loop had already left, or one more
    turn runs on the structure reached so far. *)
Lemma mwe_for_succ min_score : ∀ n toks k1 t1 k2 t2,
  mwe_for n min_score toks = Ok (k1, t1) →
  mwe_for (S n) min_score toks = Ok (k2, t2) →
  t2 = t1 ∨ mwe_iteration min_score t1 = Ok (Some t2).
Proof.
  induction n as [|n IH]; intros toks k1 t1 k2 t2.
  - intros [= <- <-]. rewrite mwe_for_S.
    destruct (mwe_iteration min_score toks) as [e|[t'|]] eqn:Hit; [discriminate| |].
    + cbn. intros [= <- <-]. by right.
    + intros [= <- <-]. by left.
  - rewrite (mwe_for_S (S n)), (mwe_for_S n).
    destruct (mwe_iteration min_score toks) as [e|[t'|]] eqn:Hit; [discriminate| |].
    + destruct (mwe_for n min_score t') as [e|[ka ta]] eqn:Ha; [discriminate|].
      destruct (mwe_for (S n) min_score t') as [e|[kb tb]] eqn:Hb; [discriminate|].
      intros [= <- <-] [= <- <-]. by eapply IH.
    + intros [= <- <-] [= <- <-]. by left.
Qed.

(** Once a turn selects nothing, the loop leaves and later values of [range]
    are never reached. *)
Lemma mwe_for_converged min_score : ∀ k n toks t,
  mwe_for k min_score toks = Ok (k, t) →
  mwe_iteration min_score t = Ok None →
  (k < n)%nat →
  mwe_for n min_score toks = Ok (k, t).
Proof.
  induction k as [|k IH]; intros n toks t.
  - intros [= <-] Hbreak Hlt. destruct n as [|n]; [lia|].
    rewrite mwe_for_S, Hbreak. reflexivity.
  - rewrite mwe_for_S.
    destruct (mwe_iteration min_score toks) as [e|[t'|]] eqn:Hit; [discriminate| |].
    + destruct (mwe_for k min_score t') as [e|[ka ta]] eqn:Ha; [discriminate|].
      cbn. intros [= -> ->] Hbreak Hlt. destruct n as [|n]; [lia|].
      rewrite mwe_for_S, Hit. rewrite (IH n t' t Ha Hbreak) by lia. reflexivity.
    + discriminate.
Qed.

(** ** The likelihood-ratio score *)

Section Score.
Local Open Scope R_scope.

Lemma _SMALL_pos : 0 < _SMALL.
Proof. unfold _SMALL. lra. Qed.

Lemma pydiv_ok a b : b ≠ 0 → pydiv a b = Ok (a / b).
Proof. intros Hb. unfold pydiv. by rewrite decide_False. Qed.

Lemma _ln_ok x : 0 < x → _ln x = Ok (ln x).
Proof. intros Hx. unfold _ln. by rewrite decide_True. Qed.

Lemma _ln_error x : x <= 0 → _ln x = Raise ValueError.
Proof. intros Hx. unfold _ln. rewrite decide_False; [reflexivity|lra]. Qed.

Lemma Rsum_4 a b c d : Rsum [a; b; c; d] = a + b + c + d.
Proof. unfold Rsum. cbn. ring. Qed.

Lemma likelihood_term_unfold cont i :
  likelihood_term cont i =
  match pydiv ((cell cont i + cell cont (Nat.lxor i 1)) * (cell cont i + cell cont (Nat.lxor i 2)))
              (Rsum cont) with
  | inl e => inl e
  | inr exp =>
      match pydiv (cell cont i) (exp + _SMALL) with
      | inl e => inl e
      | inr q =>
          match _ln (q + _SMALL) with
          | inl e => inl e
          | inr l => Ok (cell cont i * l)
          end
      end
  end.
Proof.
  unfold likelihood_term, _expected_value.
  destruct (pydiv _ (Rsum cont)) as [e|exp]; [reflexivity|]. cbn.
  destruct (pydiv _ (exp + _SMALL)) as [e|q]; [reflexivity|]. cbn.
  destruct (_ln _); reflexivity.
Qed.

(** A cell that is not negative, with row and column sums that are not
    negative either, contributes a defined summand. *)
Lemma likelihood_term_ok cont i :
  0 <= cell cont i →
  0 <= cell cont i + cell cont (Nat.lxor i 1) →
  0 <= cell cont i + cell cont (Nat.lxor i 2) →
  0 < Rsum cont →
  likelihood_term cont i =
  Ok (term_value (cell cont i) (cell cont i + cell cont (Nat.lxor i 1))
        (cell cont i + cell cont (Nat.lxor i 2)) (Rsum cont)).
Proof.
  intros Hobs Hrow Hcol Hn. rewrite likelihood_term_unfold.
  pose proof _SMALL_pos as Hs.
  rewrite pydiv_ok by lra.
  set (exp := _ / Rsum cont).
  assert (Hexp : 0 <= exp).
  { unfold exp. apply Rmult_le_pos; [by apply Rmult_le_pos|].
    left. by apply Rinv_0_lt_compat. }
  rewrite pydiv_ok by lra.
  rewrite _ln_ok; [reflexivity|].
  assert (0 <= cell cont i / (exp + _SMALL)); [|lra].
  apply Rmult_le_pos; [exact Hobs|]. left. apply Rinv_0_lt_compat. lra.
Qed.

Lemma likelihood_ratio_ok n_ii n_ix n_xi n_xx :
  consistent_marginals n_ii n_ix n_xi n_xx ->
  likelihood_ratio n_ii (n_ix, n_xi) n_xx = Ok (likelihood_value n_ii n_ix n_xi n_xx).
Proof.
  intros (H0 & Hix & Hxi & Hoo & Hn).
  unfold likelihood_ratio, likelihood_value, _contingency.
  set (cont := [n_ii; _; _; _]).
  assert (Hsum : Rsum cont = n_xx) by (unfold cont; rewrite Rsum_4; ring).
  cbn [seq rmap].
  rewrite (likelihood_term_ok cont 0), (likelihood_term_ok cont 1),
    (likelihood_term_ok cont 2), (likelihood_term_ok cont 3);
    try (rewrite Hsum; lra); try (unfold cont; cbn [cell nth Nat.lxor]; cbn; lra).
  reflexivity.
Qed.

(** A negative fourth cell makes [math.log] raise: when every word of the
    corpus is the word [w] of a repeated pair [(w, w)], the marginals are
    [n_ix = n_xi = n_xx] and the fourth cell is [n_ii - n_xx < 0]. *)
Lemma likelihood_ratio_negative_cell n_ii n :
  0 < n_ii -> n_ii + 1 <= n ->
  likelihood_ratio n_ii (n, n) n = Raise ValueError.
Proof.
  intros Hii Hlt.
  unfold likelihood_ratio, _contingency.
  set (cont := [n_ii; _; _; _]).
  assert (Hsum : Rsum cont = n) by (unfold cont; rewrite Rsum_4; ring).
  pose proof _SMALL_pos as Hs.
  cbn [seq rmap].
  rewrite (likelihood_term_ok cont 0), (likelihood_term_ok cont 1), (likelihood_term_ok cont 2);
    try (rewrite Hsum; lra); try (unfold cont; cbn [cell nth Nat.lxor]; cbn; lra).
  rewrite likelihood_term_unfold, Hsum.
  unfold cont; cbn [cell nth Nat.lxor]; cbn.
  rewrite pydiv_ok by lra.
  replace ((n - n_ii - (n - n_ii) - (n - n_ii) + (n - n_ii))
           * (n - n_ii - (n - n_ii) - (n - n_ii) + (n - n_ii)) / n) with 0
    by (field; lra).
  rewrite pydiv_ok by lra.
  rewrite _ln_error; [reflexivity|].
  unfold _SMALL in *.
  replace ((n - n_ii - (n - n_ii) - (n - n_ii)) / (0 + 1e-20))
    with (- (n - n_ii) * 1e20) by (field; lra).
  lra.
Qed.

End Score.

(** ** Candidate selection *)

Section Selection.
Local Open Scope R_scope.

Lemma ltb_asym (s1 s2 : string) : String.ltb s1 s2 = true -> String.ltb s2 s1 = true -> False.
Proof.
  unfold String.ltb. rewrite (String.compare_antisym s1 s2).
  destruct (String.compare s2 s1); cbn; discriminate.
Qed.

Lemma bigram_lt_asym p q : bigram_lt p q -> bigram_lt q p -> False.
Proof.
  unfold bigram_lt. destruct (decide (p.1 = q.1)) as [Heq|Hne].
  - rewrite decide_True by done. apply ltb_asym.
  - rewrite decide_False by done. apply ltb_asym.
Qed.

Lemma key_lt_asym a b : key_lt a b -> key_lt b a -> False.
Proof.
  unfold key_lt. intros [Hab|[Hab Hlt]] [Hba|[Hba Hlt']]; try lra.
  by eapply bigram_lt_asym.
Qed.

Lemma key_le_total : Total key_le.
Proof.
  intros a b. unfold key_le. destruct (decide (key_lt b a)) as [Hba|Hba].
  - right. intros Hab. by eapply key_lt_asym.
  - by left.
Qed.

Lemma score_desc_trans : Transitive score_desc.
Proof. intros a b c. unfold score_desc. lra. Qed.

Lemma key_le_score_desc a b : key_le a b -> score_desc a b.
Proof.
  unfold key_le, key_lt, score_desc. intros Hnlt.
  destruct (Rle_dec b.2 a.2) as [Hle|Hnle]; [exact Hle|].
  exfalso. apply Hnlt. left. lra.
Qed.

Lemma sorted_score_desc l : Sorted key_le l -> StronglySorted score_desc l.
Proof.
  intros Hs. apply Sorted_StronglySorted; [apply score_desc_trans|].
  induction Hs as [|a l Hs IH Hhd]; constructor; [exact IH|].
  destruct Hhd; constructor. by apply key_le_score_desc.
Qed.

Lemma score_gt_mono s s0 m : s <= s0 -> score_gt s m = true -> score_gt s0 m = true.
Proof.
  intros Hle. destruct m as [r| | |]; cbn; try done.
  intros Hs%bool_decide_eq_true. apply bool_decide_eq_true. lra.
Qed.

(** On a list sorted by decreasing score, stopping at the first score that
    does not exceed the minimum keeps exactly the pairs that exceed it. *)
Lemma above_score_loop_spec scored m :
  StronglySorted score_desc scored ->
  ∀ p, p ∈ above_score_loop scored m ↔ ∃ s, (p, s) ∈ scored ∧ score_gt s m = true.
Proof.
  induction 1 as [|[p0 s0] rest Hsorted IH Hhd]; intros p.
  - cbn. split; [by intros ?%elem_of_nil|]. by intros (s & ?%elem_of_nil & _).
  - cbn [above_score_loop]. destruct (score_gt s0 m) eqn:Hgt.
    + rewrite elem_of_cons, IH. split.
      * intros [->|(s & Hin & Hs)].
        -- exists s0. split; [apply list_elem_of_here|exact Hgt].
        -- exists s. split; [by apply list_elem_of_further|exact Hs].
      * intros (s & Hin & Hs). apply elem_of_cons in Hin as [[= -> ->]|Hin].
        -- by left.
        -- right. eauto.
    + split; [by intros ?%elem_of_nil|].
      intros (s & Hin & Hs). exfalso.
      apply elem_of_cons in Hin as [[= -> ->]|Hin]; [congruence|].
      rewrite Forall_forall in Hhd. specialize (Hhd _ Hin).
      unfold score_desc in Hhd. cbn in Hhd.
      rewrite (score_gt_mono _ _ _ Hhd Hs) in Hgt. discriminate.
Qed.

Lemma rmap_ok_Forall2 {A B} (f : A -> result B) l l' :
  rmap f l = Ok l' -> Forall2 (fun a b => f a = Ok b) l l'.
Proof.
  revert l'. induction l as [|a l IH]; intros l'; cbn.
  - intros [= <-]. constructor.
  - destruct (f a) as [e|b] eqn:Hfa; cbn; [discriminate|].
    destruct (rmap f l) as [e|bs]; cbn; [discriminate|].
    intros [= <-]. constructor; [exact Hfa|by apply IH].
Qed.

(** Every pair is scored once: the scored pairs are the distinct keys of
    [ngram_fd]. *)
Lemma _score_ngrams_NoDup f score_fn scored :
  _score_ngrams f score_fn = Ok scored -> NoDup scored.*1.
Proof.
  unfold _score_ngrams.
  destruct (rmap _ _) as [e|scored0] eqn:Hmap; cbn; [discriminate|].
  intros [= <-]. apply rmap_ok_Forall2 in Hmap.
  eapply sublist_NoDup; [apply (NoDup_fst_map_to_list (ngram_fd f))|].
  revert Hmap. generalize (map_to_list (ngram_fd f)).*1. intros keys Hmap.
  induction Hmap as [|tup [p [s|]] keys scored0 Hhd Htl IH]; cbn.
  - constructor.
  - destruct (score_ngram f score_fn tup.1 tup.2) as [e|o]; cbn in Hhd; [discriminate|].
    injection Hhd as <- _. destruct tup. by apply sublist_skip.
  - by apply sublist_cons.
Qed.

Lemma NoDup_fst_functional {A B} (l : list (A * B)) x y1 y2 :
  NoDup l.*1 -> (x, y1) ∈ l -> (x, y2) ∈ l -> y1 = y2.
Proof.
  induction l as [|[a b] l IH]; cbn; intros Hnd H1 H2.
  - by apply elem_of_nil in H1.
  - apply NoDup_cons in Hnd as [Hnotin Hnd].
    apply elem_of_cons in H1 as [[= -> ->]|H1], H2 as [[= ->]|H2].
    + reflexivity.
    + exfalso. apply Hnotin. apply list_elem_of_fmap. by exists (a, y2).
    + exfalso. apply Hnotin. apply list_elem_of_fmap. by exists (a, y1).
    + by apply IH.
Qed.

Lemma above_score_unfold f score_fn m scored :
  _score_ngrams f score_fn = Ok scored ->
  above_score f score_fn m = Ok (above_score_loop (merge_sort key_le scored) m).
Proof. intros Hs. unfold above_score, score_ngrams. rewrite Hs. reflexivity. Qed.

Lemma above_score_raise f score_fn m e :
  _score_ngrams f score_fn = Raise e -> above_score f score_fn m = Raise e.
Proof. intros Hs. unfold above_score, score_ngrams. rewrite Hs. reflexivity. Qed.

Lemma above_score_elem f score_fn m scored p :
  _score_ngrams f score_fn = Ok scored ->
  p ∈ above_score_loop (merge_sort key_le scored) m
  ↔ ∃ s, (p, s) ∈ scored ∧ score_gt s m = true.
Proof.
  intros Hs. rewrite above_score_loop_spec.
  - split; intros (s & Hin & Hgt); exists s; (split; [|exact Hgt]).
    + by rewrite merge_sort_Permutation in Hin.
    + by rewrite merge_sort_Permutation.
  - apply sorted_score_desc, (@Sorted_merge_sort _ key_le _ key_le_total).
Qed.

(** C2 (amended).  The selector's output is exactly the set of scored pairs
    whose score is strictly greater than the threshold [min_MWE_PMI]; a pair
    whose score equals the threshold is not selected. *)
Theorem C2_above_score_is_strict (f : BigramCollocationFinder) (score_fn : score_fn_t)
    (r : R) (scored : list (string * string * R)) :
  _score_ngrams f score_fn = Ok scored ->
  ∃ mwes, above_score f score_fn (Finite r) = Ok mwes ∧
    (∀ p, p ∈ mwes ↔ ∃ s, (p, s) ∈ scored ∧ r < s) ∧
    (∀ p, (p, r) ∈ scored -> p ∉ mwes).
Proof.
  intros Hs. eexists. split; [by apply above_score_unfold|].
  assert (Hchar : ∀ p, p ∈ above_score_loop (merge_sort key_le scored) (Finite r)
                       ↔ ∃ s, (p, s) ∈ scored ∧ r < s).
  { intros p. rewrite (above_score_elem f score_fn) by exact Hs.
    split; intros (s & Hin & Hgt); exists s; (split; [exact Hin|]).
    - by apply bool_decide_eq_true in Hgt.
    - by apply bool_decide_eq_true. }
  split; [exact Hchar|].
  intros p Hin Hsel. apply Hchar in Hsel as (s & Hin' & Hlt).
  pose proof (_score_ngrams_NoDup _ _ _ Hs) as Hnd.
  assert (s = r); [|lra].
  by eapply NoDup_fst_functional.
Qed.

End Selection.

(** ** Scoring a finder built by [from_documents] *)

Section Evaluation.
Local Open Scope R_scope.

(** [score_ngram] on a pair that was seen, for a finder of window size 2:
    the score function is called on the pair count, the two word counts and
    the number of words. *)
Lemma score_ngram_seen f score_fn w1 w2 :
  window_size f = 2%Z ->
  fd_get (ngram_fd f) (w1, w2) ≠ 0%Z ->
  score_ngram f score_fn w1 w2 =
  match score_fn (IZR (fd_get (ngram_fd f) (w1, w2)))
          (IZR (fd_get (word_fd f) w1), IZR (fd_get (word_fd f) w2))
          (IZR (finder_N f)) with
  | inl e => inl e
  | inr s => Ok (Some s)
  end.
Proof.
  intros Hw Hc. unfold score_ngram. rewrite Hw.
  replace (IZR (fd_get (ngram_fd f) (w1, w2)) / (2 - 1))
    with (IZR (fd_get (ngram_fd f) (w1, w2))) by (field; lra).
  rewrite decide_False; [|by intros ?%eq_IZR_R0].
  destruct (score_fn _ _ _); reflexivity.
Qed.

(** A finder with a single pair. *)
Lemma _score_ngrams_single_ok f score_fn p s :
  (map_to_list (ngram_fd f)).*1 = [p] ->
  score_ngram f score_fn p.1 p.2 = Ok (Some s) ->
  _score_ngrams f score_fn = Ok [(p, s)].
Proof.
  intros Hkeys Hs. unfold _score_ngrams. rewrite Hkeys. cbn. rewrite Hs. reflexivity.
Qed.

Lemma _score_ngrams_single_raise f score_fn p e :
  (map_to_list (ngram_fd f)).*1 = [p] ->
  score_ngram f score_fn p.1 p.2 = Raise e ->
  _score_ngrams f score_fn = Raise e.
Proof.
  intros Hkeys Hs. unfold _score_ngrams. rewrite Hkeys. cbn. rewrite Hs. reflexivity.
Qed.

(** The corpus of the single sentence "foo bar": one pair, seen once, among
    two words. *)
Lemma foo_bar_scored :
  _score_ngrams (from_documents [["foo"; "bar"]]) likelihood_ratio
  = Ok [(("foo", "bar"), foo_bar_score)].
Proof.
  set (f := from_documents [["foo"; "bar"]]).
  assert (Hs : likelihood_ratio (IZR 1) (IZR 1, IZR 1) (IZR 2) = Ok foo_bar_score).
  { apply likelihood_ratio_ok. unfold consistent_marginals. lra. }
  apply _score_ngrams_single_ok; [by vm_compute|].
  cbn [fst snd]. rewrite score_ngram_seen; [|by vm_compute|by vm_compute].
  replace (fd_get (ngram_fd f) ("foo", "bar")) with 1%Z by (by vm_compute).
  replace (fd_get (word_fd f) "foo") with 1%Z by (by vm_compute).
  replace (fd_get (word_fd f) "bar") with 1%Z by (by vm_compute).
  replace (finder_N f) with 2%Z by (by vm_compute).
  rewrite Hs. reflexivity.
Qed.

(** The corpus of the single sentence "a a": the pair [("a", "a")] is seen
    once and the word "a" twice among two words; the fourth cell of the
    table is [2 - 1 - 1 - 1 = -1]. *)
Lemma a_a_scored :
  _score_ngrams (from_documents [["a"; "a"]]) likelihood_ratio = Raise ValueError.
Proof.
  set (f := from_documents [["a"; "a"]]).
  apply (_score_ngrams_single_raise f _ ("a", "a")); [by vm_compute|].
  cbn [fst snd]. rewrite score_ngram_seen; [|by vm_compute|by vm_compute].
  replace (fd_get (ngram_fd f) ("a", "a")) with 1%Z by (by vm_compute).
  replace (fd_get (word_fd f) "a") with 2%Z by (by vm_compute).
  replace (finder_N f) with 2%Z by (by vm_compute).
  rewrite (likelihood_ratio_negative_cell (IZR 1) (IZR 2)) by lra.
  reflexivity.
Qed.

End Evaluation.

(** ** Running the loop on small corpora *)

Lemma merge_sort_singleton (x : string * string * R) : merge_sort key_le [x] = [x].
Proof. reflexivity. Qed.

(** With the threshold [-inf] every scored pair is selected: the sentence
    "foo bar" is contracted in the first turn, and the second turn finds no
    pair. *)
Lemma foo_bar_first_turn :
  mwe_iteration NegInf [[["foo"; "bar"]]] = Ok (Some [[["foo_bar"]]]).
Proof.
  rewrite mwe_iteration_unfold.
  change (flatten [[["foo"; "bar"]]]) with [["foo"; "bar"]].
  rewrite (above_score_unfold _ _ _ _ foo_bar_scored), merge_sort_singleton.
  cbn [above_score_loop score_gt length]. rewrite bool_decide_eq_false_2 by done.
  by vm_compute.
Qed.

Lemma foo_bar_second_turn m :
  above_score (from_documents (flatten [[["foo_bar"]]])) likelihood_ratio m = Ok [].
Proof. by vm_compute. Qed.

Lemma foo_bar_one_pass :
  mwe_for 1 NegInf [[["foo"; "bar"]]] = Ok (1%nat, [[["foo_bar"]]]).
Proof. rewrite mwe_for_S, foo_bar_first_turn. reflexivity. Qed.

Lemma a_a_first_turn m : mwe_iteration m [[["a"; "a"]]] = Raise ValueError.
Proof.
  rewrite mwe_iteration_unfold.
  change (flatten [[["a"; "a"]]]) with [["a"; "a"]].
  by rewrite (above_score_raise _ _ _ _ a_a_scored).
Qed.

(** ** The loop of [fit] *)

(** C3.  With [max_MWE_iterations = 0], [fit] returns exactly the initial
    tokenizer output: the loop runs no turn (no scoring, no contraction), and
    the structure is the sentence and word tokenization of the input. *)
Theorem C3_zero_iterations_returns_initial `{Toolkit} (lc : bool) (min_score : pyfloat)
    (X : list string) :
  fit_transform {| lower_case := lc; max_MWE_iterations := 0; min_MWE_PMI := min_score |} X
  = Ok (Some ((fun doc => (fun sent => word_tokenize (if lc then str_lower sent else sent))
                            <$> sent_tokenize doc) <$> X))
  ∧ ∀ toks, mwe_for (range_len 0) min_score toks = Ok (O, toks).
Proof.
  split; [|reflexivity].
  unfold fit_transform, fit, NLTKTokenizer_Tokenizer, NLTKTokenizer_fit, NLTK_initial.
  cbn. destruct lc; reflexivity.
Qed.

(** C4.  Contraction never changes the number of documents nor the number of
    sentences of a document, and the number of tokens of every sentence
    after turn [i + 1] is at most its number after turn [i]. *)
Theorem C4_contraction_keeps_shape (min_score : pyfloat) (toks : list (list (list string)))
    (i k k' : nat) (after_i after_Si : list (list (list string))) :
  mwe_for i min_score toks = Ok (k, after_i) →
  mwe_for (S i) min_score toks = Ok (k', after_Si) →
  (length after_i = length toks ∧ length after_Si = length toks) ∧
  (Forall2 (fun d' d : list (list string) => length d' = length d) after_i toks ∧
   Forall2 (fun d' d : list (list string) => length d' = length d) after_Si toks) ∧
  Forall2 (Forall2 (fun s' s : list string => (length s' ≤ length s)%nat)) after_Si after_i.
Proof.
  intros Hi HSi.
  pose proof (mwe_for_shape _ _ _ _ _ Hi) as Hshape_i.
  pose proof (mwe_for_shape _ _ _ _ _ HSi) as Hshape_Si.
  repeat split; try (by apply shape_le_documents); try (by apply shape_le_sentences).
  destruct (mwe_for_succ _ _ _ _ _ _ _ Hi HSi) as [->|Hturn].
  - apply shape_le_refl.
  - by eapply mwe_iteration_shape.
Qed.

(** C5.  If after [k] contraction passes, [k] below [max_MWE_iterations], no
    bigram meets the threshold, the loop leaves in that turn: with the whole
    budget it has run [k] passes only, and [fit] returns the structure that
    the [k]-th pass produced, unchanged. *)
Theorem C5_empty_selection_stops_loop `{Toolkit} (self : NLTKTokenizer) (X : list string)
    (k : nat) (toks : list (list (list string))) :
  mwe_for k (min_MWE_PMI self) (NLTK_initial self X) = Ok (k, toks) →
  above_score (from_documents (flatten toks)) likelihood_ratio (min_MWE_PMI self) = Ok [] →
  (Z.of_nat k < max_MWE_iterations self)%Z →
  mwe_for (range_len (max_MWE_iterations self)) (min_MWE_PMI self) (NLTK_initial self X)
  = Ok (k, toks)
  ∧ fit_transform self X = Ok (Some toks).
Proof.
  intros Hk Hempty Hlt.
  assert (Hfor : mwe_for (range_len (max_MWE_iterations self)) (min_MWE_PMI self)
                   (NLTK_initial self X) = Ok (k, toks)).
  { apply mwe_for_converged; [exact Hk|by apply mwe_iteration_break|].
    unfold range_len. lia. }
  split; [exact Hfor|].
  unfold fit_transform, fit, NLTKTokenizer_Tokenizer, NLTKTokenizer_fit.
  rewrite Hfor. reflexivity.
Qed.

(** C10.  [StanzaTokenizer] inherits [BaseTokenizer.fit], which only stores
    [None]: [fit_transform] returns [None] for every input, not a structure
    of documents, sentences and tokens. *)
Theorem C10_stanza_fit_transform_is_None `{Toolkit} (X : list string) :
  fit_transform Stanza X = Ok None.
Proof. reflexivity. Qed.

(** ** Configuration *)

(** A threshold that no score exceeds ([nan] or [+inf]) selects nothing. *)
Lemma above_score_loop_never scored m :
  m = NaN ∨ m = PosInf → above_score_loop scored m = [].
Proof. intros [-> | ->]; destruct scored as [|[p s] rest]; reflexivity. Qed.

Lemma mwe_for_never n m toks :
  m = NaN ∨ m = PosInf →
  mwe_for n m toks = Ok (O, toks)
  ∨ ∃ e, _score_ngrams (from_documents (flatten toks)) likelihood_ratio = Raise e.
Proof.
  intros Hm. destruct n as [|n]; [by left|].
  rewrite mwe_for_S, mwe_iteration_unfold.
  destruct (_score_ngrams (from_documents (flatten toks)) likelihood_ratio)
    as [e|scored] eqn:Hs; [right; by exists e|].
  left. rewrite (above_score_unfold _ _ _ _ Hs), above_score_loop_never by exact Hm.
  reflexivity.
Qed.

(** C6 (amended).  [fit] checks neither [max_MWE_iterations] nor
    [min_MWE_PMI] and raises no configuration error.  With
    [max_MWE_iterations < 0] the loop body never runs and [fit] returns the
    initial tokenization, whatever [min_MWE_PMI] is; with [min_MWE_PMI] equal
    to [nan] or [+inf] nothing is selected, and [fit] returns the initial
    tokenization unless the scorer itself raises. *)
Theorem C6_configuration_is_not_validated `{Toolkit} (lc : bool) (X : list string) :
  (∀ (p : positive) (min_score : pyfloat),
     let self := {| lower_case := lc; max_MWE_iterations := Z.neg p;
                    min_MWE_PMI := min_score |} in
     fit_transform self X = Ok (Some (NLTK_initial self X)))
  ∧
  (∀ (n : Z) (nan : bool),
     let self := {| lower_case := lc; max_MWE_iterations := n;
                    min_MWE_PMI := if nan then NaN else PosInf |} in
     fit_transform self X = Ok (Some (NLTK_initial self X))
     ∨ ∃ e, _score_ngrams (from_documents (flatten (NLTK_initial self X))) likelihood_ratio
            = Raise e).
Proof.
  split.
  - intros p min_score. reflexivity.
  - intros n nan self.
    destruct (mwe_for_never (range_len n) (min_MWE_PMI self) (NLTK_initial self X))
      as [Hfor|Hraise].
    + subst self. destruct nan; [by left|by right].
    + left. unfold fit_transform, fit, NLTKTokenizer_Tokenizer, NLTKTokenizer_fit.
      change (max_MWE_iterations self) with n. rewrite Hfor. reflexivity.
    + by right.
Qed.

(** ** Lower-casing *)

(** C7 (amended).  With [lower_case] true, each document is split into
    sentences as it is, and each sentence is lower-cased before it is split
    into words; the sentences of the result are those of the original text. *)
Theorem C7_lower_case_applies_to_sentences `{Toolkit} (n : Z) (min_score : pyfloat)
    (X : list string) :
  NLTK_initial {| lower_case := true; max_MWE_iterations := n; min_MWE_PMI := min_score |} X
  = (fun doc => (fun sent => word_tokenize (str_lower sent)) <$> sent_tokenize doc) <$> X
  ∧ match fit_transform {| lower_case := true; max_MWE_iterations := n;
                           min_MWE_PMI := min_score |} X with
    | inr (Some toks) =>
        Forall2 (fun (d : list (list string)) doc => length d = length (sent_tokenize doc))
          toks X
    | inr None => False
    | inl e => True
    end.
Proof.
  split; [reflexivity|].
  unfold fit_transform, fit, NLTKTokenizer_Tokenizer, NLTKTokenizer_fit.
  cbn [lower_case max_MWE_iterations min_MWE_PMI].
  destruct (mwe_for _ _ _) as [e|[k toks]] eqn:Hfor; cbn; [exact I|].
  apply mwe_for_shape, shape_le_sentences in Hfor.
  eapply (Forall2_trans _ (fun (d : list (list string)) doc =>
                              length d = length (sent_tokenize doc))); [|exact Hfor|].
  2:{ unfold NLTK_initial. cbn [lower_case].
      apply Forall2_fmap_l, Forall_Forall2_diag, Forall_forall. intros doc _.
      unfold compose. cbv beta. by rewrite length_fmap. }
  intros d1 d2 doc. cbn. congruence.
Qed.

(** ** Documents of the input *)

Lemma NLTK_initial_length `{Toolkit} self (X : list string) :
  length (NLTK_initial self X) = length X.
Proof. unfold NLTK_initial. destruct (lower_case self); apply length_fmap. Qed.

Lemma NLTK_initial_empty `{Toolkit} self (X : list string) i :
  sent_tokenize "" = [] →
  X !! i = Some "" → NLTK_initial self X !! i = Some [].
Proof.
  intros Hempty Hi. unfold NLTK_initial.
  destruct (lower_case self); rewrite list_lookup_fmap, Hi; cbn; by rewrite Hempty.
Qed.

Lemma shape_le_empty_doc after before i :
  shape_le after before → before !! i = Some [] → after !! i = Some [].
Proof.
  intros Hshape Hi.
  destruct (Forall2_lookup_r _ _ _ _ _ Hshape Hi) as (d & Hd & Hdoc).
  apply Forall2_nil_inv_r in Hdoc as ->. exact Hd.
Qed.

Lemma NLTKTokenizer_fit_shape `{Toolkit} self (X : list string) toks :
  fit_transform self X = Ok (Some toks) → shape_le toks (NLTK_initial self X).
Proof.
  unfold fit_transform, fit, NLTKTokenizer_Tokenizer, NLTKTokenizer_fit.
  destruct (mwe_for _ _ _) as [e|[k t]] eqn:Hfor; cbn; [discriminate|].
  intros [= <-]. by eapply mwe_for_shape.
Qed.

(** C8.  The output has as many documents as the input collection, and an
    empty string yields a document without tokens, not an error: this holds
    of the initial tokenization, which never raises, and of every structure
    that [fit] returns.  The three documents of the example, with
    [max_MWE_iterations = 0], give three documents, the second one empty.
    The sentence splitter is assumed to find no sentence in the empty
    string, as NLTK's does. *)
Theorem C8_documents_match_input `{Toolkit} (Hempty : sent_tokenize "" = [])
    (self : NLTKTokenizer) (X : list string) :
  (length (NLTK_initial self X) = length X ∧
   ∀ i, X !! i = Some "" → (flatten <$> NLTK_initial self X) !! i = Some [])
  ∧ (∀ toks, fit_transform self X = Ok (Some toks) →
       length toks = length X ∧
       ∀ i, X !! i = Some "" → (flatten <$> toks) !! i = Some [])
  ∧ ∃ d1 d3,
      fit_transform {| lower_case := lower_case self; max_MWE_iterations := 0;
                       min_MWE_PMI := min_MWE_PMI self |} example_docs
      = Ok (Some [d1; []; d3]).
Proof.
  split; [|split].
  - split; [apply NLTK_initial_length|]. intros i Hi.
    by rewrite list_lookup_fmap, (NLTK_initial_empty self X i Hempty Hi).
  - intros toks Hfit. apply NLTKTokenizer_fit_shape in Hfit.
    split; [by rewrite (shape_le_documents _ _ Hfit), NLTK_initial_length|].
    intros i Hi. rewrite list_lookup_fmap.
    by rewrite (shape_le_empty_doc _ _ i Hfit (NLTK_initial_empty self X i Hempty Hi)).
  - unfold fit_transform, fit, NLTKTokenizer_Tokenizer, NLTKTokenizer_fit, NLTK_initial.
    cbn. rewrite Hempty. destruct (lower_case self); cbn; eauto.
Qed.

(** ** Degenerate counts *)

(** C9 (failing input).  On the single document "a a", whose two words are
    the same word, the table of the pair [("a", "a")] has the cells
    [1, 1, 1, -1]; [math.log] is called on a negative number and [fit]
    raises [ValueError] instead of returning a score, for every threshold
    and every positive number of iterations. *)
Theorem C9_repeated_word_raises (lc : bool) (p : positive) (min_score : pyfloat) :
  @fit_transform _ (@NLTKTokenizer_Tokenizer Sample.toolkit)
    {| lower_case := lc; max_MWE_iterations := Z.pos p; min_MWE_PMI := min_score |}
    ["a a"]
  = Raise ValueError.
Proof.
  unfold fit_transform, fit, NLTKTokenizer_Tokenizer, NLTKTokenizer_fit.
  cbn [lower_case max_MWE_iterations min_MWE_PMI].
  replace (@NLTK_initial Sample.toolkit _ ["a a"]) with [[["a"; "a"]]]
    by (destruct lc; by vm_compute).
  unfold range_len. rewrite Z2Nat.inj_pos.
  destruct (Pos2Nat.is_succ p) as [n ->].
  rewrite mwe_for_S, a_a_first_turn. reflexivity.
Qed.

(** ** Concrete runs *)

(** C2 (counterexample).  In the corpus of the single sentence "foo bar" the
    pair [("foo", "bar")] is scored [foo_bar_score]; with that very score as
    threshold, the selector returns nothing: the tie is left out. *)
Lemma C2_tie_is_left_out :
  _score_ngrams (from_documents [["foo"; "bar"]]) likelihood_ratio
    = Ok [(("foo", "bar"), foo_bar_score)]
  ∧ above_score (from_documents [["foo"; "bar"]]) likelihood_ratio (Finite foo_bar_score)
    = Ok [].
Proof.
  split; [exact foo_bar_scored|].
  rewrite (above_score_unfold _ _ _ _ foo_bar_scored), merge_sort_singleton.
  cbn [above_score_loop score_gt].
  rewrite bool_decide_eq_false_2; [reflexivity|]. apply Rlt_irrefl.
Qed.

Lemma C2_above_score_is_strict_witness :
  _score_ngrams (from_documents [["foo"; "bar"]]) likelihood_ratio
    = Ok [(("foo", "bar"), foo_bar_score)]
  ∧ ∃ mwes,
      above_score (from_documents [["foo"; "bar"]]) likelihood_ratio (Finite 0) = Ok mwes ∧
      (∀ p, p ∈ mwes ↔ ∃ s, (p, s) ∈ [(("foo", "bar"), foo_bar_score)] ∧ (0 < s)%R) ∧
      (∀ p, (p, 0%R) ∈ [(("foo", "bar"), foo_bar_score)] → p ∉ mwes).
Proof.
  split; [exact foo_bar_scored|].
  exact (C2_above_score_is_strict _ likelihood_ratio 0 _ foo_bar_scored).
Defined.

Lemma C4_contraction_keeps_shape_witness :
  (mwe_for 0 NegInf [[["foo"; "bar"]]] = Ok (0%nat, [[["foo"; "bar"]]]) ∧
   mwe_for 1 NegInf [[["foo"; "bar"]]] = Ok (1%nat, [[["foo_bar"]]]))
  ∧ (length [[["foo"; "bar"]]] = 1%nat ∧ length [[["foo_bar"]]] = 1%nat) ∧
    (Forall2 (fun d' d : list (list string) => length d' = length d)
       [[["foo"; "bar"]]] [[["foo"; "bar"]]] ∧
     Forall2 (fun d' d : list (list string) => length d' = length d)
       [[["foo_bar"]]] [[["foo"; "bar"]]]) ∧
    Forall2 (Forall2 (fun s' s : list string => (length s' ≤ length s)%nat))
      [[["foo_bar"]]] [[["foo"; "bar"]]].
Proof.
  split; [split; [reflexivity|exact foo_bar_one_pass]|].
  exact (C4_contraction_keeps_shape NegInf [[["foo"; "bar"]]] 0 0 1 _ _
           eq_refl foo_bar_one_pass).
Defined.

Lemma C5_empty_selection_stops_loop_witness :
  let self := {| lower_case := false; max_MWE_iterations := 2; min_MWE_PMI := NegInf |} in
  (mwe_for 1 NegInf (@NLTK_initial Sample.toolkit self ["foo bar"])
     = Ok (1%nat, [[["foo_bar"]]]) ∧
   above_score (from_documents (flatten [[["foo_bar"]]])) likelihood_ratio NegInf = Ok [] ∧
   (Z.of_nat 1 < 2)%Z)
  ∧ mwe_for (range_len 2) NegInf (@NLTK_initial Sample.toolkit self ["foo bar"])
      = Ok (1%nat, [[["foo_bar"]]])
  ∧ @fit_transform _ (@NLTKTokenizer_Tokenizer Sample.toolkit) self ["foo bar"]
      = Ok (Some [[["foo_bar"]]]).
Proof.
  intros self.
  assert (Hinit : @NLTK_initial Sample.toolkit self ["foo bar"] = [[["foo"; "bar"]]])
    by (by vm_compute).
  assert (Hk : mwe_for 1 (min_MWE_PMI self) (@NLTK_initial Sample.toolkit self ["foo bar"])
               = Ok (1%nat, [[["foo_bar"]]])).
  { rewrite Hinit. exact foo_bar_one_pass. }
  split; [split; [exact Hk|split; [apply foo_bar_second_turn|reflexivity]]|].
  exact (@C5_empty_selection_stops_loop Sample.toolkit self ["foo bar"] 1 [[["foo_bar"]]]
           Hk (foo_bar_second_turn NegInf) eq_refl).
Defined.

(** C6 (counterexample).  A negative [max_MWE_iterations] together with a
    threshold that is not a number is accepted: [fit] returns the initial
    tokenization. *)
Lemma C6_invalid_configuration_is_accepted :
  @fit_transform _ (@NLTKTokenizer_Tokenizer Sample.toolkit)
    {| lower_case := false; max_MWE_iterations := -1; min_MWE_PMI := NaN |}
    ["foo bar"]
  = Ok (Some [[["foo"; "bar"]]]).
Proof. by vm_compute. Qed.

(** C7 (counterexample).  In the document "Acme Inc. He left" the
    abbreviation "Inc." stands before a capitalised sentence starter, so the
    text has two sentences; lower-cased, "inc." stands before a lower-case
    word and the text is one sentence.  With [lower_case] true the code
    returns the two sentences of the original text, each lower-cased and
    split into words, not the single sentence that splitting the lower-cased
    text gives. *)
Lemma C7_sentences_are_split_before_lower_casing :
  @NLTK_initial Sample.toolkit
    {| lower_case := true; max_MWE_iterations := 0; min_MWE_PMI := Finite 12 |}
    ["Acme Inc. He left"]
  = [[["acme"; "inc"; "."]; ["he"; "left"]]]
  ∧ (fun doc => @word_tokenize Sample.toolkit <$>
                @sent_tokenize Sample.toolkit (@str_lower Sample.toolkit doc))
      <$> ["Acme Inc. He left"]
  = [[["acme"; "inc."; "he"; "left"]]]
  ∧ @NLTK_initial Sample.toolkit
      {| lower_case := true; max_MWE_iterations := 0; min_MWE_PMI := Finite 12 |}
      ["Acme Inc. He left"]
    ≠ (fun doc => @word_tokenize Sample.toolkit <$>
                  @sent_tokenize Sample.toolkit (@str_lower Sample.toolkit doc))
        <$> ["Acme Inc. He left"].
Proof. split; [by vm_compute|split; [by vm_compute|]]. by vm_compute. Qed.

Lemma C8_documents_match_input_witness :
  @sent_tokenize Sample.toolkit "" = []
  ∧ ∃ d1 d3,
      @fit_transform _ (@NLTKTokenizer_Tokenizer Sample.toolkit)
        {| lower_case := false; max_MWE_iterations := 0; min_MWE_PMI := Finite 12 |}
        example_docs
      = Ok (Some [d1; []; d3]).
Proof.
  split; [reflexivity|].
  exact (proj2 (proj2 (@C8_documents_match_input Sample.toolkit eq_refl
                         NLTKTokenizer_default example_docs))).
Defined.

(** * Further properties of the contraction *)

(** ** Sentences that a pass leaves alone *)

Lemma windows2_cons {A} (x y : A) rest :
  windows2 (x :: y :: rest) = (x, y) :: windows2 (y :: rest).
Proof. reflexivity. Qed.

Lemma contract_spec_fixed cs : ∀ s : list string,
  Forall (fun p => p ∉ cs) (windows2 s) → contract_spec cs s = s.
Proof.
  induction s as [|x s IH]; [reflexivity|].
  destruct s as [|y rest]; [reflexivity|].
  rewrite windows2_cons, contract_spec_cons. intros [Hxy Hrest]%Forall_cons.
  rewrite bool_decide_eq_false_2 by exact Hxy. f_equal. by apply IH.
Qed.

Lemma contract_spec_shrinks cs : ∀ n (s : list string),
  (length s ≤ n)%nat →
  Exists (fun p => p ∈ cs) (windows2 s) →
  (length (contract_spec cs s) < length s)%nat.
Proof.
  induction n as [|n IH]; intros s Hn Hex.
  - destruct s; [by apply Exists_nil in Hex|cbn in Hn; lia].
  - destruct s as [|x [|y rest]]; [by apply Exists_nil in Hex|by apply Exists_nil in Hex|].
    rewrite windows2_cons in Hex. rewrite contract_spec_cons.
    destruct (bool_decide ((x, y) ∈ cs)) eqn:Hxy; cbn [length].
    + pose proof (contract_spec_length cs (length rest) rest ltac:(lia)). lia.
    + apply Exists_cons in Hex as [Hin|Hex].
      * apply bool_decide_eq_false in Hxy. contradiction.
      * cbn [length] in Hn. specialize (IH (y :: rest) ltac:(cbn [length]; lia) Hex).
        cbn [length] in IH. lia.
Qed.

(** X1.  A pass leaves a sentence as it is exactly when none of its pairs of
    neighbouring tokens is in the set of expressions; in particular the
    tokenizer of the empty set changes nothing. *)
Theorem X1_tokenize_unchanged_iff_no_pair (mwes : list (string * string))
    (sent : list string) :
  tokenize (MWETokenizer_init mwes) sent = sent
  ↔ Forall (fun p => p ∉ mwes) (windows2 sent).
Proof.
  rewrite tokenize_spec. split.
  - intros Hfix. destruct (decide (Forall (fun p => p ∉ mwes) (windows2 sent)))
      as [Hall|Hnot]; [exact Hall|].
    exfalso. apply not_Forall_Exists in Hnot; [|apply _].
    assert (Hex : Exists (fun p => p ∈ mwes) (windows2 sent)).
    { eapply Exists_impl; [exact Hnot|]. intros p Hp. cbn in Hp.
      destruct (decide (p ∈ mwes)); [assumption|contradiction]. }
    pose proof (contract_spec_shrinks mwes (length sent) sent ltac:(lia) Hex) as Hlt.
    rewrite Hfix in Hlt. lia.
  - apply contract_spec_fixed.
Qed.

(** ** The text of a sentence *)

Lemma string_app_assoc (s1 s2 s3 : string) : (s1 +:+ s2) +:+ s3 = s1 +:+ (s2 +:+ s3).
Proof.
  induction s1 as [|c s1 IH]; [reflexivity|].
  change (String c ((s1 +:+ s2) +:+ s3) = String c (s1 +:+ (s2 +:+ s3))).
  by rewrite IH.
Qed.

Lemma String_concat_cons sep x (l : list string) :
  l ≠ [] → String.concat sep (x :: l) = x +:+ sep +:+ String.concat sep l.
Proof. destruct l; [done|reflexivity]. Qed.

Lemma contract_spec_nil cs (s : list string) : contract_spec cs s = [] → s = [].
Proof.
  destruct s as [|x [|y rest]]; [done|done|].
  rewrite contract_spec_cons. by destruct (bool_decide _).
Qed.

(** Joining the tokens of a sentence by ["_"] gives the same string before
    and after a pass. *)
Lemma contract_spec_text cs : ∀ n (s : list string),
  (length s ≤ n)%nat →
  String.concat "_" (contract_spec cs s) = String.concat "_" s.
Proof.
  induction n as [|n IH]; intros s Hn.
  - destruct s; [reflexivity|cbn in Hn; lia].
  - destruct s as [|x [|y rest]]; [reflexivity|reflexivity|].
    cbn [length] in Hn. rewrite contract_spec_cons.
    destruct (bool_decide ((x, y) ∈ cs)).
    + destruct rest as [|z rest]; [reflexivity|].
      rewrite String_concat_cons by (by intros ?%contract_spec_nil).
      rewrite IH by (cbn [length] in *; lia).
      rewrite (String_concat_cons _ x) by done.
      rewrite (String_concat_cons _ y) by done.
      by rewrite !string_app_assoc.
    + rewrite String_concat_cons by (by intros ?%contract_spec_nil).
      rewrite IH by (cbn [length] in *; lia).
      by rewrite (String_concat_cons _ x).
Qed.

Lemma contract_texts mwes toks : sentence_texts (contract mwes toks) = sentence_texts toks.
Proof.
  unfold sentence_texts, contract, tokenize_sents.
  rewrite <- list_fmap_compose. apply list_fmap_ext. intros _ doc _. cbn.
  rewrite <- list_fmap_compose. apply list_fmap_ext. intros _ sent _. cbn.
  rewrite tokenize_spec. by apply (contract_spec_text mwes (length sent)).
Qed.

Lemma mwe_iteration_texts min_score toks toks' :
  mwe_iteration min_score toks = Ok (Some toks') →
  sentence_texts toks' = sentence_texts toks.
Proof.
  rewrite mwe_iteration_unfold.
  destruct (above_score _ _ _) as [e|mwes]; [discriminate|].
  destruct (bool_decide _); [discriminate|].
  intros [= <-]. apply contract_texts.
Qed.

Lemma mwe_for_texts min_score : ∀ n toks k toks',
  mwe_for n min_score toks = Ok (k, toks') →
  sentence_texts toks' = sentence_texts toks.
Proof.
  induction n as [|n IH]; intros toks k toks'.
  - by intros [= <- <-].
  - rewrite mwe_for_S.
    destruct (mwe_iteration min_score toks) as [e|[t1|]] eqn:Hit; [discriminate| |].
    + destruct (mwe_for n min_score t1) as [e|[k1 t2]] eqn:Hfor; [discriminate|].
      intros [= <- <-]. rewrite (IH _ _ _ Hfor). by eapply mwe_iteration_texts.
    + by intros [= <- <-].
Qed.

(** X2.  Contraction loses no text: in whatever [NLTKTokenizer.fit] returns,
    the tokens of every sentence, joined by ["_"], spell the same string as
    the tokens of that sentence in the initial tokenization. *)
Theorem X2_fit_keeps_sentence_text `{Toolkit} (self : NLTKTokenizer) (X : list string)
    (toks : list (list (list string))) :
  fit_transform self X = Ok (Some toks) →
  sentence_texts toks = sentence_texts (NLTK_initial self X).
Proof.
  unfold fit_transform, fit, NLTKTokenizer_Tokenizer, NLTKTokenizer_fit.
  destruct (mwe_for _ _ _) as [e|[k t]] eqn:Hfor; cbn; [discriminate|].
  intros [= <-]. by eapply mwe_for_texts.
Qed.

Lemma foo_bar_fit :
  @fit_transform _ (@NLTKTokenizer_Tokenizer Sample.toolkit)
    {| lower_case := false; max_MWE_iterations := 2; min_MWE_PMI := NegInf |} ["foo bar"]
  = Ok (Some [[["foo_bar"]]]).
Proof.
  unfold fit_transform, fit, NLTKTokenizer_Tokenizer, NLTKTokenizer_fit.
  cbn [lower_case max_MWE_iterations min_MWE_PMI].
  replace (@NLTK_initial Sample.toolkit _ ["foo bar"]) with [[["foo"; "bar"]]]
    by (by vm_compute).
  change (range_len 2) with 2%nat.
  rewrite (mwe_for_converged NegInf 1 2 _ _ foo_bar_one_pass); [reflexivity| |lia].
  apply mwe_iteration_break, foo_bar_second_turn.
Qed.

Lemma X2_fit_keeps_sentence_text_witness :
  @fit_transform _ (@NLTKTokenizer_Tokenizer Sample.toolkit)
    {| lower_case := false; max_MWE_iterations := 2; min_MWE_PMI := NegInf |} ["foo bar"]
  = Ok (Some [[["foo_bar"]]])
  ∧ sentence_texts [[["foo_bar"]]]
    = sentence_texts
        (@NLTK_initial Sample.toolkit
           {| lower_case := false; max_MWE_iterations := 2; min_MWE_PMI := NegInf |}
           ["foo bar"]).
Proof.
  split; [exact foo_bar_fit|].
  exact (@X2_fit_keeps_sentence_text Sample.toolkit _ _ _ foo_bar_fit).
Defined.

(** * What [from_documents] counts *)

Section Counting.
Context `{Countable K}.
Implicit Types (fd : gmap K Z) (k : K).

Lemma fd_get_incr fd k k' :
  fd_get (fd_incr k fd) k' = (fd_get fd k' + if decide (k = k') then 1 else 0)%Z.
Proof.
  unfold fd_incr, fd_get at 1. destruct (decide (k = k')) as [->|Hne].
  - rewrite lookup_insert_eq. reflexivity.
  - rewrite lookup_insert_ne by exact Hne. fold (fd_get fd k'). lia.
Qed.

Lemma fd_incr_is_Some fd k k' :
  is_Some (fd_incr k fd !! k') ↔ k = k' ∨ is_Some (fd !! k').
Proof.
  unfold fd_incr. destruct (decide (k = k')) as [->|Hne].
  - rewrite lookup_insert_eq. split; [by left|by eauto].
  - rewrite lookup_insert_ne by exact Hne. split; [by right|by intros [?|?]].
Qed.

Lemma fd_N_insert fd k v :
  fd !! k = None → fd_N (<[k := v]> fd) = (v + fd_N fd)%Z.
Proof.
  intros Hk. unfold fd_N. rewrite map_fold_insert_L; [reflexivity| |exact Hk].
  intros. lia.
Qed.

Lemma fd_N_incr fd k : fd_N (fd_incr k fd) = (fd_N fd + 1)%Z.
Proof.
  unfold fd_incr, fd_get. destruct (fd !! k) as [v|] eqn:Hk; cbn.
  - rewrite <- (insert_delete_eq fd k (v + 1)%Z).
    rewrite fd_N_insert by apply lookup_delete_eq.
    rewrite <- (insert_delete_id fd k v Hk) at 2.
    rewrite fd_N_insert by apply lookup_delete_eq. lia.
  - rewrite fd_N_insert by exact Hk. lia.
Qed.

End Counting.

Lemma fd_N_empty `{Countable K} : fd_N (∅ : gmap K Z) = 0%Z.
Proof. unfold fd_N. by rewrite map_fold_empty. Qed.

Lemma count_first_cons w win wins :
  count_first w (win :: wins)
  = ((if decide (win.1 = Some w) then 1 else 0) + count_first w wins)%nat.
Proof.
  unfold count_first. destruct (decide (win.1 = Some w)).
  - by rewrite filter_cons_True.
  - by rewrite filter_cons_False.
Qed.

Lemma count_pair_cons p win wins :
  count_pair p (win :: wins)
  = ((if decide (win = (Some p.1, Some p.2)) then 1 else 0) + count_pair p wins)%nat.
Proof.
  unfold count_pair. destruct (decide (win = (Some p.1, Some p.2))).
  - by rewrite filter_cons_True.
  - by rewrite filter_cons_False.
Qed.

Lemma count_words_cons win wins :
  count_words (win :: wins)
  = ((if decide (is_Some win.1) then 1 else 0) + count_words wins)%nat.
Proof.
  unfold count_words. destruct (decide (is_Some win.1)).
  - by rewrite filter_cons_True.
  - by rewrite filter_cons_False.
Qed.

(** The loop of [from_words]: what the two dictionaries hold after the
    windows [wins], starting from [wfd] and [bfd]. *)
Lemma from_words_fold wins : ∀ wfd bfd,
  (∀ w, fd_get (foldl from_words_step (wfd, bfd) wins).1 w
        = (fd_get wfd w + Z.of_nat (count_first w wins))%Z) ∧
  (∀ p, fd_get (foldl from_words_step (wfd, bfd) wins).2 p
        = (fd_get bfd p + Z.of_nat (count_pair p wins))%Z) ∧
  (∀ p, is_Some ((foldl from_words_step (wfd, bfd) wins).2 !! p)
        ↔ is_Some (bfd !! p) ∨ (Some p.1, Some p.2) ∈ wins) ∧
  fd_N (foldl from_words_step (wfd, bfd) wins).1
  = (fd_N wfd + Z.of_nat (count_words wins))%Z.
Proof.
  induction wins as [|[o1 o2] wins IH]; intros wfd bfd.
  - cbn. split; [intros; lia|split; [intros; lia|split; [|lia]]].
    intros p. split; [by left|by intros [?|?%elem_of_nil]].
  - cbn [foldl]. 
    assert (Hstep : from_words_step (wfd, bfd) (o1, o2) =
              match o1 with
              | None => (wfd, bfd)
              | Some w1 => match o2 with
                           | Some w2 => (fd_incr w1 wfd, fd_incr (w1, w2) bfd)
                           | None => (fd_incr w1 wfd, bfd)
                           end
              end) by (by destruct o1, o2).
    rewrite Hstep. clear Hstep.
    destruct o1 as [w1|]; [destruct o2 as [w2|]|].
    + destruct (IH (fd_incr w1 wfd) (fd_incr (w1, w2) bfd)) as (Hw & Hp & Hd & Hn).
      split; [|split; [|split; [intros p; split|]]].
      * intros w. rewrite Hw, fd_get_incr, count_first_cons. cbn [fst].
        destruct (decide (w1 = w)) as [->|Hne].
        -- rewrite decide_True by done. lia.
        -- rewrite decide_False by congruence. lia.
      * intros [a b]. rewrite Hp, fd_get_incr, count_pair_cons. cbn [fst snd].
        destruct (decide ((w1, w2) = (a, b))) as [[= -> ->]|Hne].
        -- rewrite decide_True by done. lia.
        -- rewrite decide_False by congruence. lia.
      * intros Hs. apply Hd in Hs as [Hs|Hs].
        -- apply fd_incr_is_Some in Hs as [<-|Hs]; [right; apply list_elem_of_here|by left].
        -- right. by apply list_elem_of_further.
      * intros [Hs|Hs]; apply Hd.
        -- left. apply fd_incr_is_Some. by right.
        -- apply elem_of_cons in Hs as [[= <- <-]|Hs]; [|by right].
           left. apply fd_incr_is_Some. left. by destruct p.
      * rewrite Hn, fd_N_incr, count_words_cons. cbn [fst].
        rewrite decide_True by eauto. lia.
    + destruct (IH (fd_incr w1 wfd) bfd) as (Hw & Hp & Hd & Hn).
      split; [|split; [|split; [intros p; split|]]].
      * intros w. rewrite Hw, fd_get_incr, count_first_cons. cbn [fst].
        destruct (decide (w1 = w)) as [->|Hne].
        -- rewrite decide_True by done. lia.
        -- rewrite decide_False by congruence. lia.
      * intros p. rewrite Hp, count_pair_cons. rewrite decide_False by congruence. lia.
      * intros Hs. apply Hd in Hs as [Hs|Hs]; [by left|right; by apply list_elem_of_further].
      * intros [Hs|Hs]; apply Hd; [by left|].
        apply elem_of_cons in Hs as [[=]|Hs]. by right.
      * rewrite Hn, fd_N_incr, count_words_cons. cbn [fst].
        rewrite decide_True by eauto. lia.
    + destruct (IH wfd bfd) as (Hw & Hp & Hd & Hn).
      split; [|split; [|split; [intros p; split|]]].
      * intros w. rewrite Hw, count_first_cons. cbn [fst].
        rewrite decide_False by congruence. lia.
      * intros p. rewrite Hp, count_pair_cons. rewrite decide_False by congruence. lia.
      * intros Hs. apply Hd in Hs as [Hs|Hs]; [by left|right; by apply list_elem_of_further].
      * intros [Hs|Hs]; apply Hd; [by left|].
        apply elem_of_cons in Hs as [[=]|Hs]. by right.
      * rewrite Hn, count_words_cons. cbn [fst].
        rewrite decide_False by (by intros [? [=]]). lia.
Qed.

Lemma from_words_counts ws :
  window_size (from_words ws) = 2%Z ∧
  (∀ w, fd_get (word_fd (from_words ws)) w = Z.of_nat (count_first w (ngrams2 ws))) ∧
  (∀ p, fd_get (ngram_fd (from_words ws)) p = Z.of_nat (count_pair p (ngrams2 ws))) ∧
  (∀ p, is_Some (ngram_fd (from_words ws) !! p) ↔ (Some p.1, Some p.2) ∈ ngrams2 ws) ∧
  finder_N (from_words ws) = Z.of_nat (count_words (ngrams2 ws)).
Proof.
  destruct (from_words_fold (ngrams2 ws) ∅ ∅) as (Hw & Hp & Hd & Hn).
  unfold from_words, finder_N.
  destruct (foldl from_words_step (∅, ∅) (ngrams2 ws)) as [wfd bfd]. cbn in *.
  split; [reflexivity|]. split; [|split; [|split]].
  - intros w. rewrite Hw. unfold fd_get at 1. by rewrite lookup_empty.
  - intros p. rewrite Hp. unfold fd_get at 1. by rewrite lookup_empty.
  - intros p. rewrite Hd, lookup_empty. split; [|by right].
    by intros [[? [=]]|?].
  - by rewrite Hn, fd_N_empty.
Qed.

(** ** The windows of a padded sequence *)

Lemma windows2_snoc_cons {A} (x : A) l a :
  windows2 ((x :: l) ++ [a]) = (x, default a (head l)) :: windows2 (l ++ [a]).
Proof. by destruct l. Qed.

Lemma windows2_app_mid {A} (l : list A) a r :
  windows2 (l ++ a :: r) = windows2 (l ++ [a]) ++ windows2 (a :: r).
Proof.
  induction l as [|x l IH]; [reflexivity|].
  destruct l as [|y l]; [reflexivity|].
  change (windows2 ((x :: y :: l) ++ a :: r)) with ((x, y) :: windows2 ((y :: l) ++ a :: r)).
  change (windows2 ((x :: y :: l) ++ [a])) with ((x, y) :: windows2 ((y :: l) ++ [a])).
  by rewrite IH.
Qed.

Lemma count_first_windows w (l : list (option string)) a :
  count_first w (windows2 (l ++ [a])) = length (filter (fun o => o = Some w) l).
Proof.
  induction l as [|x l IH]; [reflexivity|].
  rewrite windows2_snoc_cons, count_first_cons, IH. cbn [fst].
  destruct (decide (x = Some w)).
  - by rewrite filter_cons_True.
  - by rewrite filter_cons_False.
Qed.

Lemma count_words_windows (l : list (option string)) a :
  count_words (windows2 (l ++ [a])) = length (filter is_Some l).
Proof.
  induction l as [|x l IH]; [reflexivity|].
  rewrite windows2_snoc_cons, count_words_cons, IH. cbn [fst].
  destruct (decide (is_Some x)).
  - by rewrite filter_cons_True.
  - by rewrite filter_cons_False.
Qed.

(** A pair is seen at most as often as its first word. *)
Lemma count_pair_le_first p wins : (count_pair p wins ≤ count_first p.1 wins)%nat.
Proof.
  induction wins as [|win wins IH]; [reflexivity|].
  rewrite count_pair_cons, count_first_cons.
  destruct (decide (win = (Some p.1, Some p.2))) as [->|Hne].
  - rewrite decide_True by done. lia.
  - destruct (decide (win.1 = Some p.1)); lia.
Qed.

(** A pair is seen at most as often as its second word, since the sequence
    ends with the padding symbol. *)
Lemma count_pair_le_tail p (l : list (option string)) :
  (count_pair p (windows2 (l ++ [None]))
   ≤ length (filter (fun o => o = Some p.2) (tail l)))%nat.
Proof.
  induction l as [|x l IH]; [reflexivity|].
  rewrite windows2_snoc_cons, count_pair_cons. cbn [tail].
  destruct l as [|y l].
  - cbn [head default from_option]. rewrite decide_False by (by intros [=]).
    cbn. lia.
  - cbn [head default from_option tail] in *. unfold Datatypes.id.
    destruct (decide ((x, y) = (Some p.1, Some p.2))) as [[= -> ->]|Hne].
    + rewrite filter_cons_True by done. cbn [length]. lia.
    + destruct (decide (y = Some p.2)).
      * rewrite filter_cons_True by done. cbn [length]. lia.
      * rewrite filter_cons_False by done. lia.
Qed.

Lemma filter_tail_le {A} (P : A → Prop) `{∀ x, Decision (P x)} (l : list A) :
  (length (filter P (tail l)) ≤ length (filter P l))%nat.
Proof.
  destruct l as [|x l]; [reflexivity|]. cbn [tail].
  destruct (decide (P x)).
  - rewrite filter_cons_True by done. cbn [length]. lia.
  - by rewrite filter_cons_False.
Qed.

Lemma count_pair_le_second p (l : list (option string)) :
  (count_pair p (windows2 (l ++ [None])) ≤ count_first p.2 (windows2 (l ++ [None])))%nat.
Proof.
  rewrite count_first_windows. etrans; [apply count_pair_le_tail|apply filter_tail_le].
Qed.

(** Two different words together occur at most as often as all words. *)
Lemma count_two_words (w1 w2 : string) (l : list (option string)) :
  w1 ≠ w2 →
  (length (filter (fun o => o = Some w1) l) + length (filter (fun o => o = Some w2) l)
   ≤ length (filter is_Some l))%nat.
Proof.
  intros Hne. induction l as [|x l IH]; [reflexivity|].
  destruct (decide (x = Some w1)) as [->|H1].
  - rewrite (filter_cons_True (fun o => o = Some w1)) by done.
    rewrite (filter_cons_False (fun o => o = Some w2)) by congruence.
    rewrite (filter_cons_True is_Some) by eauto. cbn [length]. lia.
  - rewrite (filter_cons_False (fun o => o = Some w1)) by done.
    destruct (decide (x = Some w2)) as [->|H2].
    + rewrite (filter_cons_True (fun o => o = Some w2)) by done.
      rewrite (filter_cons_True is_Some) by eauto. cbn [length]. lia.
    + rewrite (filter_cons_False (fun o => o = Some w2)) by done.
      destruct (decide (is_Some x)).
      * rewrite (filter_cons_True is_Some) by done. cbn [length]. lia.
      * by rewrite (filter_cons_False is_Some).
Qed.

Lemma count_pair_pos p wins :
  (Some p.1, Some p.2) ∈ wins → (0 < count_pair p wins)%nat.
Proof.
  induction wins as [|win wins IH]; [by intros ?%elem_of_nil|].
  rewrite count_pair_cons. intros [->|Hin]%elem_of_cons.
  - rewrite decide_True by done. lia.
  - specialize (IH Hin). lia.
Qed.

(** ** Pairs are counted inside sentences *)

Lemma windows2_Some_snoc (s : list string) x y :
  (Some x, Some y) ∈ windows2 ((Some <$> s) ++ [None]) ↔ (x, y) ∈ windows2 s.
Proof.
  induction s as [|a s IH]; [by split; intros ?%elem_of_nil|].
  rewrite fmap_cons, windows2_snoc_cons. destruct s as [|b s].
  - cbn. split; [|by intros ?%elem_of_nil].
    intros [[=]|?%elem_of_nil]%elem_of_cons; done.
  - rewrite windows2_cons, !elem_of_cons, IH. cbn. split.
    + intros [[= -> ->]|?]; [by left|by right].
    + intros [[= -> ->]|?]; [by left|by right].
Qed.

Lemma windows2_None_cons (q : list (option string)) x y :
  (Some x, Some y) ∈ windows2 (None :: q) ↔ (Some x, Some y) ∈ windows2 q.
Proof.
  destruct q as [|z q]; [reflexivity|].
  rewrite windows2_cons, elem_of_cons. split; [by intros [[=]|?]|by right].
Qed.

Lemma ngrams2_build_new_documents (sents : list (list string)) x y :
  (Some x, Some y) ∈ ngrams2 (_build_new_documents sents)
  ↔ ∃ s, s ∈ sents ∧ (x, y) ∈ windows2 s.
Proof.
  unfold ngrams2, _build_new_documents.
  induction sents as [|s sents IH].
  - cbn. split; [by intros ?%elem_of_nil|by intros (s & ?%elem_of_nil & _)].
  - rewrite fmap_cons. cbn [mjoin list_join]. rewrite <- !app_assoc. cbn [app].
    rewrite windows2_app_mid, elem_of_app, windows2_Some_snoc, windows2_None_cons, IH.
    split.
    + intros [Hin|(s' & Hs' & Hin)].
      * exists s. split; [apply list_elem_of_here|exact Hin].
      * exists s'. split; [by apply list_elem_of_further|exact Hin].
    + intros (s' & [->|Hs']%elem_of_cons & Hin); [by left|right; eauto].
Qed.

Lemma from_documents_seen (sents : list (list string)) (p : string * string) :
  is_Some (ngram_fd (from_documents sents) !! p) ↔ ∃ s, s ∈ sents ∧ p ∈ windows2 s.
Proof.
  destruct (from_words_counts (_build_new_documents sents)) as (_ & _ & _ & Hd & _).
  unfold from_documents. rewrite Hd, ngrams2_build_new_documents. by destruct p.
Qed.

Lemma _score_ngrams_sublist f score_fn scored :
  _score_ngrams f score_fn = Ok scored →
  scored.*1 `sublist_of` (map_to_list (ngram_fd f)).*1.
Proof.
  unfold _score_ngrams.
  destruct (rmap _ _) as [e|scored0] eqn:Hmap; cbn; [discriminate|].
  intros [= <-]. apply rmap_ok_Forall2 in Hmap.
  revert Hmap. generalize (map_to_list (ngram_fd f)).*1. intros keys Hmap.
  induction Hmap as [|tup [p [s|]] keys scored0 Hhd Htl IH]; cbn.
  - constructor.
  - destruct (score_ngram f score_fn tup.1 tup.2) as [e|o]; cbn in Hhd; [discriminate|].
    injection Hhd as <- _. destruct tup. by apply sublist_skip.
  - by apply sublist_cons.
Qed.

Lemma _score_ngrams_seen f score_fn scored p s :
  _score_ngrams f score_fn = Ok scored → (p, s) ∈ scored → is_Some (ngram_fd f !! p).
Proof.
  intros Hs Hin. apply _score_ngrams_sublist in Hs.
  assert (Hp : p ∈ (map_to_list (ngram_fd f)).*1).
  { eapply elem_of_sublist; [|exact Hs]. apply list_elem_of_fmap. by exists (p, s). }
  apply list_elem_of_fmap in Hp as ([p' c] & -> & Hin').
  apply elem_of_map_to_list in Hin'. by exists c.
Qed.

Lemma above_score_inv f score_fn m mwes :
  above_score f score_fn m = Ok mwes →
  ∃ scored, _score_ngrams f score_fn = Ok scored ∧
            mwes = above_score_loop (merge_sort key_le scored) m.
Proof.
  unfold above_score, score_ngrams.
  destruct (_score_ngrams f score_fn) as [e|scored]; cbn; [discriminate|].
  intros [= <-]. by exists scored.
Qed.

(** X3.  Whatever the measure and the threshold, every selected bigram
    stands somewhere in the corpus as two neighbouring tokens of one
    sentence: pairs are never counted across the end of a sentence. *)
Theorem X3_selected_pairs_are_neighbours (sents : list (list string))
    (score_fn : score_fn_t) (min_score : pyfloat) (mwes : list (string * string)) :
  above_score (from_documents sents) score_fn min_score = Ok mwes →
  ∀ p, p ∈ mwes → ∃ s, s ∈ sents ∧ p ∈ windows2 s.
Proof.
  intros (scored & Hs & ->)%above_score_inv p Hp.
  apply (above_score_elem _ _ _ _ _ Hs) in Hp as (s & Hin & _).
  apply from_documents_seen. by eapply _score_ngrams_seen.
Qed.

Lemma foo_bar_selected :
  above_score (from_documents [["foo"; "bar"]]) likelihood_ratio NegInf
  = Ok [("foo", "bar")].
Proof.
  by rewrite (above_score_unfold _ _ _ _ foo_bar_scored), merge_sort_singleton.
Qed.

Lemma X3_selected_pairs_are_neighbours_witness :
  above_score (from_documents [["foo"; "bar"]]) likelihood_ratio NegInf
  = Ok [("foo", "bar")]
  ∧ ∀ p, p ∈ [("foo", "bar")] → ∃ s, s ∈ [["foo"; "bar"]] ∧ p ∈ windows2 s.
Proof.
  split; [exact foo_bar_selected|].
  exact (X3_selected_pairs_are_neighbours _ _ _ _ foo_bar_selected).
Defined.

(** ** Every pass merges something *)

Lemma sum_list_with_le {A} (f g : A → nat) (l : list A) :
  (∀ x, x ∈ l → (f x ≤ g x)%nat) → (sum_list_with f l ≤ sum_list_with g l)%nat.
Proof.
  induction l as [|a l IH]; intros Hle; [reflexivity|]. cbn.
  pose proof (Hle a (list_elem_of_here _ _)).
  specialize (IH (fun x Hx => Hle x (list_elem_of_further _ _ _ Hx))). lia.
Qed.

Lemma sum_list_with_lt {A} (f g : A → nat) (l : list A) a :
  (∀ x, x ∈ l → (f x ≤ g x)%nat) → a ∈ l → (f a < g a)%nat →
  (sum_list_with f l < sum_list_with g l)%nat.
Proof.
  induction l as [|b l IH]; intros Hle Hin Hlt; [by apply elem_of_nil in Hin|]. cbn.
  pose proof (Hle b (list_elem_of_here _ _)) as Hb.
  pose proof (sum_list_with_le f g l (fun x Hx => Hle x (list_elem_of_further _ _ _ Hx))).
  apply elem_of_cons in Hin as [<-|Hin]; [lia|].
  specialize (IH (fun x Hx => Hle x (list_elem_of_further _ _ _ Hx)) Hin Hlt). lia.
Qed.

Lemma sum_list_with_fmap {A B} (f : B → nat) (h : A → B) (l : list A) :
  sum_list_with f (h <$> l) = sum_list_with (fun x => f (h x)) l.
Proof. induction l as [|a l IH]; [reflexivity|]. cbn. by rewrite IH. Qed.

Lemma token_count_contract mwes toks :
  token_count (contract mwes toks)
  = sum_list_with (fun doc : list (list string) =>
      sum_list_with (fun s : list string => length (contract_spec mwes s)) doc) toks.
Proof.
  unfold token_count, contract, tokenize_sents. rewrite sum_list_with_fmap.
  induction toks as [|doc toks IH]; [reflexivity|]. cbn. rewrite IH. f_equal.
  rewrite sum_list_with_fmap. clear IH.
  induction doc as [|s doc IH]; [reflexivity|]. cbn.
  by rewrite IH, tokenize_spec.
Qed.

Lemma token_count_contract_lt mwes toks doc s p :
  doc ∈ toks → s ∈ doc → p ∈ windows2 s → p ∈ mwes →
  (token_count (contract mwes toks) < token_count toks)%nat.
Proof.
  intros Hdoc Hs Hp Hmwe. rewrite token_count_contract. unfold token_count.
  assert (Hle : ∀ s' : list string,
            (length (contract_spec mwes s') ≤ length s')%nat).
  { intros s'. by apply (contract_spec_length mwes (length s')). }
  apply (sum_list_with_lt _ _ _ doc); [|exact Hdoc|].
  - intros d _. apply sum_list_with_le. intros s' _. apply Hle.
  - apply (sum_list_with_lt _ _ _ s); [|exact Hs|].
    + intros s' _. apply Hle.
    + apply (contract_spec_shrinks mwes (length s)); [lia|].
      apply Exists_exists. by exists p.
Qed.

(** A turn that does not leave the loop merges at least one pair. *)
Lemma mwe_iteration_progress min_score toks toks' :
  mwe_iteration min_score toks = Ok (Some toks') →
  (token_count toks' < token_count toks)%nat.
Proof.
  rewrite mwe_iteration_unfold.
  destruct (above_score _ _ _) as [e|mwes] eqn:Hsel; [discriminate|].
  destruct mwes as [|p mwes]; [discriminate|].
  rewrite bool_decide_eq_false_2 by done. intros [= <-].
  destruct (above_score_inv _ _ _ _ Hsel) as (scored & Hs & Hmwes).
  assert (Hp : p ∈ above_score_loop (merge_sort key_le scored) min_score)
    by (rewrite <- Hmwes; apply list_elem_of_here).
  apply (above_score_elem _ _ _ _ _ Hs) in Hp as (s & Hin & _).
  apply (_score_ngrams_seen _ _ _ _ _ Hs), from_documents_seen in Hin
    as (sent & Hsent & Hpair).
  apply list_elem_of_join in Hsent as (doc & Hsent & Hdoc).
  eapply token_count_contract_lt; [exact Hdoc|exact Hsent|exact Hpair|].
  apply list_elem_of_here.
Qed.

(** X4.  The loop makes progress: it runs at most as many passes as
    [range] has values, and every pass removes at least one token, so the
    passes and the tokens left together never exceed the tokens at the
    start. *)
Theorem X4_every_pass_removes_a_token (min_score : pyfloat) (n k : nat)
    (toks toks' : list (list (list string))) :
  mwe_for n min_score toks = Ok (k, toks') →
  (k ≤ n)%nat ∧ (k + token_count toks' ≤ token_count toks)%nat.
Proof.
  intros Hfor. split; [by eapply mwe_for_passes|].
  revert toks k toks' Hfor. induction n as [|n IH]; intros toks k toks'.
  - intros [= <- <-]. lia.
  - rewrite mwe_for_S.
    destruct (mwe_iteration min_score toks) as [e|[t1|]] eqn:Hit; [discriminate| |].
    + destruct (mwe_for n min_score t1) as [e|[k1 t2]] eqn:Hfor; [discriminate|].
      intros [= <- <-]. apply IH in Hfor. apply mwe_iteration_progress in Hit.
      cbn. lia.
    + intros [= <- <-]. lia.
Qed.

Lemma X4_every_pass_removes_a_token_witness :
  mwe_for 1 NegInf [[["foo"; "bar"]]] = Ok (1%nat, [[["foo_bar"]]])
  ∧ (1 ≤ 1)%nat
  ∧ (1 + token_count [[["foo_bar"]]] ≤ token_count [[["foo"; "bar"]]])%nat.
Proof.
  split; [exact foo_bar_one_pass|].
  exact (X4_every_pass_removes_a_token NegInf 1 1 _ _ foo_bar_one_pass).
Defined.

(** * When the score is defined *)

Section Marginals.
Local Open Scope R_scope.

(** For a pair of two different words that was seen, the counts that
    [score_ngram] passes on are consistent: all four cells of the table are
    non-negative. *)
Lemma from_documents_marginals (sents : list (list string)) (p : string * string) :
  is_Some (ngram_fd (from_documents sents) !! p) ->
  p.1 ≠ p.2 ->
  fd_get (ngram_fd (from_documents sents)) p ≠ 0%Z ∧
  consistent_marginals
    (IZR (fd_get (ngram_fd (from_documents sents)) p))
    (IZR (fd_get (word_fd (from_documents sents)) p.1))
    (IZR (fd_get (word_fd (from_documents sents)) p.2))
    (IZR (finder_N (from_documents sents))).
Proof.
  unfold from_documents.
  destruct (from_words_counts (_build_new_documents sents)) as (_ & Hw & Hp & Hd & Hn).
  intros Hseen%Hd Hne. rewrite Hp, !Hw, Hn. unfold ngrams2 in *.
  set (l := _build_new_documents sents) in *.
  pose proof (count_pair_pos p _ Hseen) as Hpos.
  pose proof (count_pair_le_first p (windows2 (l ++ [None]))) as H1.
  pose proof (count_pair_le_second p l) as H2.
  pose proof (count_two_words p.1 p.2 l Hne) as H3.
  rewrite <- !(count_first_windows _ l None), <- (count_words_windows l None) in H3.
  split; [lia|]. unfold consistent_marginals.
  repeat split.
  - apply IZR_le. lia.
  - apply IZR_le. lia.
  - apply IZR_le. lia.
  - rewrite <- plus_IZR, <- minus_IZR. apply IZR_le. lia.
  - apply IZR_lt. lia.
Qed.

Lemma rmap_ok_all {A B} (f : A -> result B) (l : list A) :
  (∀ a, a ∈ l -> ∃ b, f a = Ok b) -> ∃ l', rmap f l = Ok l'.
Proof.
  induction l as [|a l IH]; intros Hall; [by exists []|].
  destruct (Hall a (list_elem_of_here _ _)) as [b Hb].
  destruct (IH (fun x Hx => Hall x (list_elem_of_further _ _ _ Hx))) as [l' Hl'].
  exists (b :: l'). cbn. rewrite Hb. cbn. rewrite Hl'. reflexivity.
Qed.

Lemma _score_ngrams_ok f score_fn :
  (∀ p, is_Some (ngram_fd f !! p) -> ∃ o, score_ngram f score_fn p.1 p.2 = Ok o) ->
  ∃ scored, _score_ngrams f score_fn = Ok scored.
Proof.
  intros Hall. unfold _score_ngrams.
  destruct (rmap_ok_all
              (fun tup : string * string =>
                 s ← score_ngram f score_fn tup.1 tup.2; Ok (tup, s))
              (map_to_list (ngram_fd f)).*1) as [l' Hl'].
  - intros p Hp. apply list_elem_of_fmap in Hp as ([p' c] & -> & Hin).
    apply elem_of_map_to_list in Hin. destruct (Hall p' (ex_intro _ c Hin)) as [o Ho].
    exists (p', o). cbn in *. rewrite Ho. reflexivity.
  - rewrite Hl'. cbn. eauto.
Qed.

Lemma from_documents_score_ok (sents : list (list string)) (p : string * string) :
  is_Some (ngram_fd (from_documents sents) !! p) ->
  p.1 ≠ p.2 ->
  ∃ s, score_ngram (from_documents sents) likelihood_ratio p.1 p.2 = Ok (Some s).
Proof.
  intros Hseen Hne.
  destruct (from_documents_marginals sents p Hseen Hne) as [Hnz Hcons].
  destruct (from_words_counts (_build_new_documents sents)) as (Hws & _).
  destruct p as [w1 w2]. cbn [fst snd] in *.
  rewrite score_ngram_seen; [|exact Hws|exact Hnz].
  rewrite (likelihood_ratio_ok _ _ _ _ Hcons). eauto.
Qed.

End Marginals.

(** X5.  When no sentence holds the same token twice in a row, the turn of
    the loop raises nothing: every pair that is scored has a defined
    likelihood ratio, whatever the threshold. *)
Theorem X5_turn_returns_without_repeated_token (min_score : pyfloat)
    (toks : list (list (list string))) :
  Forall (Forall (fun s : list string =>
            Forall (fun p : string * string => p.1 ≠ p.2) (windows2 s))) toks →
  ∃ r, mwe_iteration min_score toks = Ok r.
Proof.
  intros Hno. rewrite mwe_iteration_unfold.
  destruct (_score_ngrams_ok (from_documents (flatten toks)) likelihood_ratio)
    as [scored Hs].
  - intros p Hseen. pose proof Hseen as Hseen'.
    apply from_documents_seen in Hseen' as (s & Hs & Hp).
    apply list_elem_of_join in Hs as (doc & Hs & Hdoc).
    rewrite Forall_forall in Hno. specialize (Hno _ Hdoc).
    rewrite Forall_forall in Hno. specialize (Hno _ Hs).
    rewrite Forall_forall in Hno. specialize (Hno _ Hp).
    destruct (from_documents_score_ok _ p Hseen Hno) as [s' Hs']. eauto.
  - rewrite (above_score_unfold _ _ _ _ Hs).
    destruct (bool_decide _); eauto.
Qed.

Lemma X5_turn_returns_without_repeated_token_witness :
  Forall (Forall (fun s : list string =>
            Forall (fun p : string * string => p.1 ≠ p.2) (windows2 s)))
    [[["foo"; "bar"; "pok"]; ["bar"]]; []]
  ∧ ∃ r, mwe_iteration (Finite 12) [[["foo"; "bar"; "pok"]; ["bar"]]; []] = Ok r.
Proof.
  assert (Hno : Forall (Forall (fun s : list string =>
                   Forall (fun p : string * string => p.1 ≠ p.2) (windows2 s)))
                  [[["foo"; "bar"; "pok"]; ["bar"]]; []]).
  { repeat constructor; cbn; discriminate. }
  split; [exact Hno|].
  exact (X5_turn_returns_without_repeated_token (Finite 12) _ Hno).
Defined.

(** * A sentence that repeats one word *)

Lemma windows2_replicate (w : string) m (p : string * string) :
  p ∈ windows2 (replicate m w) → p = (w, w).
Proof.
  induction m as [|m IH]; [by intros ?%elem_of_nil|].
  destruct m as [|m]; [by intros ?%elem_of_nil|].
  change (replicate (S (S m)) w) with (w :: w :: replicate m w).
  rewrite windows2_cons. intros [->|Hin]%elem_of_cons; [reflexivity|by apply IH].
Qed.

Lemma NoDup_all_same {A} (l : list A) a :
  NoDup l → (∀ x, x ∈ l → x = a) → a ∈ l → l = [a].
Proof.
  intros Hnd Hall Hin. destruct l as [|x l]; [by apply elem_of_nil in Hin|].
  rewrite (Hall x (list_elem_of_here _ _)) in *. f_equal.
  destruct l as [|y l]; [reflexivity|]. exfalso.
  apply NoDup_cons in Hnd as [Hnotin _]. apply Hnotin.
  rewrite (Hall y (list_elem_of_further _ _ _ (list_elem_of_here _ _))).
  apply list_elem_of_here.
Qed.

Section Repeated.
Local Open Scope R_scope.

Lemma repeated_word_scored (w : string) (n : nat) :
  _score_ngrams (from_documents [replicate (S (S n)) w]) likelihood_ratio
  = Raise ValueError.
Proof.
  set (sents := [replicate (S (S n)) w]).
  assert (Hseen : is_Some (ngram_fd (from_documents sents) !! (w, w))).
  { apply from_documents_seen. exists (replicate (S (S n)) w).
    split; [apply list_elem_of_here|]. apply list_elem_of_here. }
  assert (Hkeys : (map_to_list (ngram_fd (from_documents sents))).*1 = [(w, w)]).
  { apply NoDup_all_same.
    - apply NoDup_fst_map_to_list.
    - intros p ([p' c] & -> & Hin)%list_elem_of_fmap. cbn.
      apply elem_of_map_to_list in Hin.
      destruct (proj1 (from_documents_seen sents p') (ex_intro _ c Hin))
        as (s & ->%list_elem_of_singleton & Hp).
      by eapply windows2_replicate.
    - destruct Hseen as [c Hc]. apply list_elem_of_fmap. exists ((w, w), c).
      split; [reflexivity|]. by apply elem_of_map_to_list. }
  apply (_score_ngrams_single_raise _ _ (w, w)); [exact Hkeys|]. cbn [fst snd].
  unfold from_documents in *.
  destruct (from_words_counts (_build_new_documents sents)) as (Hws & Hw & Hp & Hd & Hn).
  apply Hd in Hseen. cbn [fst snd] in Hseen.
  pose proof (count_pair_pos (w, w) _ Hseen) as Hpos.
  rewrite score_ngram_seen; [|exact Hws|rewrite Hp; lia].
  rewrite Hp, Hw, Hn. unfold ngrams2 in *.
  set (l := _build_new_documents sents) in *.
  pose proof (count_pair_le_tail (w, w) l) as Htail.
  rewrite count_first_windows, count_words_windows.
  assert (Hl : l = (Some <$> replicate (S (S n)) w) ++ [None]).
  { unfold l, sents, _build_new_documents. cbn [fmap list_fmap mjoin list_join].
    by rewrite app_nil_r. }
  assert (Hcw : length (filter (fun o : option string => o = Some w) l) = S (S n)).
  { rewrite Hl, filter_app.
    rewrite (filter_cons_False _ None) by done. rewrite filter_nil, app_nil_r.
    clear. induction (S (S n)) as [|m IH]; [reflexivity|].
    cbn [replicate fmap list_fmap]. rewrite filter_cons_True by done.
    cbn [length]. f_equal. exact IH. }
  assert (Hcs : length (filter is_Some l) = S (S n)).
  { rewrite Hl, filter_app.
    rewrite (filter_cons_False _ None) by (by intros [? [=]]).
    rewrite filter_nil, app_nil_r.
    clear. induction (S (S n)) as [|m IH]; [reflexivity|].
    cbn [replicate fmap list_fmap]. rewrite filter_cons_True by eauto.
    cbn [length]. f_equal. exact IH. }
  assert (Htl : (length (filter (fun o : option string => o = Some w) (tail l))
                 < length (filter (fun o : option string => o = Some w) l))%nat).
  { rewrite Hl. cbn [replicate fmap list_fmap app tail].
    rewrite !filter_cons_True by done. cbn [length]. lia. }
  rewrite Hcw, Hcs. cbn [snd] in Htail.
  rewrite likelihood_ratio_negative_cell; [reflexivity| |].
  - apply IZR_lt. lia.
  - rewrite <- (plus_IZR _ 1). apply IZR_le. lia.
Qed.

End Repeated.

(** X6.  A corpus of one sentence that repeats a single word, twice or more,
    makes the first turn of the loop raise [ValueError], for every word,
    every threshold and every positive number of iterations: the table of
    the pair of the word with itself has a negative cell. *)
Theorem X6_repeated_word_sentence_raises (w : string) (n k : nat) (min_score : pyfloat) :
  mwe_for (S k) min_score [[replicate (S (S n)) w]] = Raise ValueError.
Proof.
  rewrite mwe_for_S, mwe_iteration_unfold.
  change (flatten [[replicate (S (S n)) w]]) with ([replicate (S (S n)) w] ++ []).
  rewrite app_nil_r.
  by rewrite (above_score_raise _ _ _ _ (repeated_word_scored w n)).
Qed.

(** * [CountVectorizerTokenizer] and the accessors *)

Lemma CountVectorizer_initial_sentences `{Toolkit} (X : list string) :
  Forall2 (fun (d : list (list string)) doc =>
             length d = length (sent_tokenize (cv_preprocesser doc)))
    (CountVectorizer_initial X) X.
Proof.
  unfold CountVectorizer_initial.
  apply Forall2_fmap_l, Forall_Forall2_diag, Forall_forall. intros doc _.
  unfold compose. cbv beta. by rewrite length_fmap.
Qed.

(** X7.  Whatever [CountVectorizerTokenizer.fit] stores is a structure (not
    [None]) with one document for each input string; each document has as
    many sentences as the sentence splitter finds in the preprocessed
    string, and every sentence spells, with its tokens joined by ["_"], the
    same text as in the initial tokenization. *)
Theorem X7_count_vectorizer_fit_shape `{Toolkit} (self : CountVectorizerTokenizer)
    (X : list string) (r : option (list (list (list string)))) :
  fit_transform self X = Ok r →
  ∃ toks, r = Some toks ∧
    length toks = length X ∧
    Forall2 (fun (d : list (list string)) doc =>
               length d = length (sent_tokenize (cv_preprocesser doc))) toks X ∧
    sentence_texts toks = sentence_texts (CountVectorizer_initial X).
Proof.
  unfold fit_transform, fit, CountVectorizerTokenizer_Tokenizer,
    CountVectorizerTokenizer_fit.
  destruct (mwe_for _ _ _) as [e|[k toks]] eqn:Hfor; cbn; [discriminate|].
  intros [= <-]. exists toks. split; [reflexivity|].
  pose proof (mwe_for_shape _ _ _ _ _ Hfor) as Hshape.
  pose proof (CountVectorizer_initial_sentences X) as Hinit.
  split; [|split].
  - rewrite (shape_le_documents _ _ Hshape). unfold CountVectorizer_initial.
    apply length_fmap.
  - eapply Forall2_trans; [|exact (shape_le_sentences _ _ Hshape)|exact Hinit].
    intros d1 d2 doc. cbn. congruence.
  - by eapply mwe_for_texts.
Qed.

Lemma foo_bar_cv_fit :
  @fit_transform _ (@CountVectorizerTokenizer_Tokenizer Sample.toolkit)
    {| cv_max_MWE_iterations := 2; cv_min_MWE_PMI := NegInf |} ["Foo bar"]
  = Ok (Some [[["foo_bar"]]]).
Proof.
  unfold fit_transform, fit, CountVectorizerTokenizer_Tokenizer,
    CountVectorizerTokenizer_fit.
  cbn [cv_max_MWE_iterations cv_min_MWE_PMI].
  replace (@CountVectorizer_initial Sample.toolkit ["Foo bar"]) with [[["foo"; "bar"]]]
    by (by vm_compute).
  change (range_len 2) with 2%nat.
  rewrite (mwe_for_converged NegInf 1 2 _ _ foo_bar_one_pass); [reflexivity| |lia].
  apply mwe_iteration_break, foo_bar_second_turn.
Qed.

Lemma X7_count_vectorizer_fit_shape_witness :
  @fit_transform _ (@CountVectorizerTokenizer_Tokenizer Sample.toolkit)
    {| cv_max_MWE_iterations := 2; cv_min_MWE_PMI := NegInf |} ["Foo bar"]
  = Ok (Some [[["foo_bar"]]])
  ∧ ∃ toks, Some [[["foo_bar"]]] = Some toks ∧
      length toks = length ["Foo bar"] ∧
      Forall2 (fun (d : list (list string)) doc =>
                 length d = length (@sent_tokenize Sample.toolkit
                                      (@cv_preprocesser Sample.toolkit doc)))
        toks ["Foo bar"] ∧
      sentence_texts toks
      = sentence_texts (@CountVectorizer_initial Sample.toolkit ["Foo bar"]).
Proof.
  split; [exact foo_bar_cv_fit|].
  exact (@X7_count_vectorizer_fit_shape Sample.toolkit _ _ _ foo_bar_cv_fit).
Defined.

(** X8.  After [NLTKTokenizer.fit] has returned, the accessors return too:
    [tokens_by_doc] gives one list of tokens for each input string.  After
    the inherited [BaseTokenizer.fit] of [StanzaTokenizer], which stores
    [None], [tokens_by_doc] raises [TypeError]. *)
Theorem X8_tokens_by_doc_after_fit `{Toolkit} (self : NLTKTokenizer) (X : list string)
    (r : option (list (list (list string)))) :
  fit_transform self X = Ok r →
  (∃ by_doc, tokens_by_doc r = Ok by_doc ∧ length by_doc = length X)
  ∧ (∃ by_sent, tokens_by_sent r = Ok by_sent)
  ∧ (r' ← fit_transform Stanza X; tokens_by_doc r') = Raise TypeError.
Proof.
  intros Hfit. 
  assert (∃ toks, r = Some toks ∧ length toks = length X) as (toks & -> & Hlen).
  { revert Hfit. unfold fit_transform, fit, NLTKTokenizer_Tokenizer, NLTKTokenizer_fit.
    destruct (mwe_for _ _ _) as [e|[k toks]] eqn:Hfor; cbn; [discriminate|].
    intros [= <-]. exists toks. split; [reflexivity|].
    by rewrite (shape_le_documents _ _ (mwe_for_shape _ _ _ _ _ Hfor)), NLTK_initial_length. }
  split; [|split; [|reflexivity]].
  - exists (flatten <$> toks). split; [reflexivity|]. by rewrite length_fmap.
  - by exists (flatten toks).
Qed.

Lemma X8_tokens_by_doc_after_fit_witness :
  @fit_transform _ (@NLTKTokenizer_Tokenizer Sample.toolkit)
    {| lower_case := false; max_MWE_iterations := 2; min_MWE_PMI := NegInf |} ["foo bar"]
  = Ok (Some [[["foo_bar"]]])
  ∧ (∃ by_doc, tokens_by_doc (Some [[["foo_bar"]]]) = Ok by_doc
               ∧ length by_doc = length ["foo bar"])
  ∧ (∃ by_sent, tokens_by_sent (Some [[["foo_bar"]]]) = Ok by_sent)
  ∧ (r' ← @fit_transform _ StanzaTokenizer_Tokenizer Stanza ["foo bar"];
     tokens_by_doc r') = Raise TypeError.
Proof.
  split; [exact foo_bar_fit|].
  exact (@X8_tokens_by_doc_after_fit Sample.toolkit _ _ _ foo_bar_fit).
Defined.

(** * The trie of [MWETokenizer] *)

(** X9.  The trie that [MWETokenizer(mwes)] builds from bigrams holds them
    and nothing else: following a token [x] and then a token [y] from the
    root ends on a leaf without children exactly when [(x, y)] is one of the
    bigrams, and neither the root nor a node below one token is a leaf, so
    no single token counts as an expression. *)
Theorem X9_trie_holds_exactly_the_bigrams (mwes : list (string * string)) (x y : string) :
  (children (_mwes (MWETokenizer_init mwes)) !! x ≫= fun tx => children tx !! y)
  = (if bool_decide ((x, y) ∈ mwes) then Some (TrieNode true ∅) else None)
  ∧ leaf (_mwes (MWETokenizer_init mwes)) = false
  ∧ (∀ tx, children (_mwes (MWETokenizer_init mwes)) !! x = Some tx → leaf tx = false).
Proof.
  destruct (bigram_trie_init mwes) as [Hleaf Hroot]. cbn [_mwes MWETokenizer_init].
  specialize (Hroot x). split; [|split; [exact Hleaf|]].
  - destruct (children (Trie_init (ngram_seq <$> mwes)) !! x) as [tx|]; cbn.
    + destruct Hroot as [_ Hy]. specialize (Hy y).
      destruct (children tx !! y) as [ty|].
      * destruct Hy as [Hin ->]. by rewrite bool_decide_eq_true_2.
      * by rewrite bool_decide_eq_false_2.
    + by rewrite bool_decide_eq_false_2.
  - intros tx Htx. rewrite Htx in Hroot. apply Hroot.
Qed.
